(** * Instance initialisation and constructor-option resolution (Vue 2 core)

    A shallow embedding of [src/core/instance/init.js] and
    [src/core/instance/index.js]:

    - [resolveModifiedOptions], [resolveConstructorOptions]: the memoised
      walk over the [super] chain of a component class;
    - [initInternalComponent]: the fast path that builds [$options] by
      prototype chaining;
    - [_init]: the orchestrator that assigns [_uid], resolves options and
      calls the subsystem initialisers and the lifecycle hooks in order;
    - [Vue]: the public constructor function.

    Modelling conventions.

    - Plain objects live in a heap, a list indexed by address; an object has
      a prototype and a finite map of own properties.  Prototype chains are
      followed by [lookup_chain].  Getters, setters, frozen objects and
      non-enumerable properties are not modelled, and the root prototype
      ([Object.prototype]) contributes no property, so it is written [VNull].
    - Component classes ([Class<Component>] in the Flow annotations) live in
      a class table; their static fields [options], [super], [superOptions],
      [extendOptions], [sealedOptions] and [prototype] are record fields.
      A value that the annotations type as a class and that is not one makes
      the model raise [TypeError].
    - Numbers are integers; there is no NaN, so [!==] is plain inequality.
      The counter [uid] is a JavaScript number: [uid++] is exact up to
      2^53, where [uid + 1] rounds back to [uid] ([next_uid]).
    - Code imported from modules outside this slice ([mergeOptions],
      [initProxy], [initLifecycle], [initEvents], [initRender], [callHook],
      [initInjections], [initState], [initProvide], [warn], every method
      found by property lookup) is a parameter.  The merge engine is a
      transformer of the object heap.  The others are [script]s: trees of
      arbitrary store updates and nested constructions, so that a hook or
      [$mount] may build further instances.
    - A log records the operations of the initialiser as they are
      performed.  It is written by the operations themselves: [uid++], a
      call of an imported function ([import]), an assignment of [_self] or
      [_renderProxy] ([assign]) and the call of [vm.$mount] ([invoke])
      each append their own event, named after the callee or the key and
      tagged with the uid of the construction. *)

From stdpp Require Import ssreflect gmap strings list fin_maps pretty.
From Stdlib Require Import ZArith Lia.

Set Warnings "-rewrite-rw".

(** ** Values *)

Abbreviation loc := nat (only parsing).
Abbreviation cid := nat (only parsing).

(** Function values: the initialiser installed by [initMixin] as
    [Vue.prototype._init], or a function of the environment. *)
Inductive fn : Type :=
| FInit
| FExt (name : string).

Inductive val : Type :=
| VUndef
| VNull
| VBool (b : bool)
| VNum (n : Z)
| VStr (s : string)
| VObj (l : loc)
| VClass (c : cid)
| VFun (f : fn).

#[global] Instance fn_eq_dec : EqDecision fn.
Proof. solve_decision. Defined.

#[global] Instance val_eq_dec : EqDecision val.
Proof. solve_decision. Defined.

(** [a !== b] *)
Definition strict_neq (a b : val) : bool := negb (bool_decide (a = b)).

(** ToBoolean *)
Definition truthy (v : val) : bool :=
  match v with
  | VUndef | VNull => false
  | VBool b => b
  | VNum n => negb (Z.eqb n 0)
  | VStr s => negb (bool_decide (s = ""))
  | VObj _ | VClass _ | VFun _ => true
  end.

(** ToPropertyKey on the values used as computed keys: exact on strings
    (the type of [options.name]), booleans, [undefined], [null] and
    integers below 10^21 (from there on JavaScript prints an exponent).
    Objects and functions would call their [toString], and a function
    prints its source text; the default renderings stand for these. *)
Definition to_key (v : val) : string :=
  match v with
  | VUndef => "undefined"
  | VNull => "null"
  | VBool true => "true"
  | VBool false => "false"
  | VNum n => pretty n
  | VStr s => s
  | VObj _ => "[object Object]"
  | VClass _ | VFun _ => "function () { [native code] }"
  end.

(** ** Store *)

Record obj : Type := Obj { proto : val; props : gmap string val }.

(** The static side of a component class; the fields are read as
    [Cls.options], [Cls.super], ... *)
Module Cls.
Record t : Type := Make {
  options : val;
  super : option cid;
  superOptions : val;
  extendOptions : val;
  sealedOptions : val;
  prototype : val
}.
End Cls.
Abbreviation klass := Cls.t.

Record store : Type := Store { objs : list obj; classes : list klass }.

Definition set_objs (h : list obj) (s : store) : store :=
  Store h (classes s).

Definition set_classes (ct : list klass) (s : store) : store :=
  Store (objs s) ct.

(** ** Outcomes and the state-and-exception monad *)

Inductive err : Type :=
| TypeError
| RangeError
| Thrown (v : val).

Inductive outcome (A : Type) : Type :=
| Ret (a : A)
| Throw (e : err).
Arguments Ret {A} a.
Arguments Throw {A} e.

Definition M (S A : Type) : Type := S → outcome A * S.

Definition ret {S A} (a : A) : M S A := λ s, (Ret a, s).

Definition throw {S A} (e : err) : M S A := λ s, (Throw e, s).

Definition bind {S A B} (m : M S A) (k : A → M S B) : M S B :=
  λ s, match m s with
       | (Ret a, s') => k a s'
       | (Throw e, s') => (Throw e, s')
       end.

Declare Scope js_scope.
Delimit Scope js_scope with js.
Notation "'let!' x ':=' m 'in' k" := (bind m (λ x, k))
  (at level 10, x name, m at level 100, k at level 200,
   format "'[v' 'let!'  x  ':='  m  'in' '/' k ']'") : js_scope.
Notation "m ';;' k" := (bind m (λ _, k))
  (at level 100, k at level 200, right associativity) : js_scope.
Open Scope js_scope.

Definition when {S} (b : bool) (m : M S unit) : M S unit :=
  if b then m else ret tt.

(** [for (x of xs) acc = body acc x], with early exit on a throw. *)
Fixpoint foldM {S A B} (body : A → B → M S A) (xs : list B) (acc : A) : M S A :=
  match xs with
  | [] => ret acc
  | x :: xs' => let! acc' := body acc x in foldM body xs' acc'
  end.

Abbreviation H := (M store).

(** ** Property access on plain objects *)

(** Own property, then the prototype chain; [n] bounds the length of the
    chain, and the heap size is enough for any acyclic chain. *)
Fixpoint lookup_chain (n : nat) (h : list obj) (l : loc) (k : string) : option val :=
  match n with
  | O => None
  | S n' =>
      match h !! l with
      | None => None
      | Some o =>
          match props o !! k with
          | Some v => Some v
          | None =>
              match proto o with
              | VObj p => lookup_chain n' h p k
              | _ => None
              end
          end
      end
  end.

(** The keys that [for (key in o)] visits: own ones and inherited ones. *)
Fixpoint chain_keys (n : nat) (h : list obj) (l : loc) : gset string :=
  match n with
  | O => ∅
  | S n' =>
      match h !! l with
      | None => ∅
      | Some o =>
          dom (props o) ∪
          match proto o with
          | VObj p => chain_keys n' h p
          | _ => ∅
          end
      end
  end.

(** [v[k]] *)
Definition get (v : val) (k : string) : H val :=
  λ s, match v with
       | VUndef | VNull => (Throw TypeError, s)
       | VObj l => (Ret (default VUndef (lookup_chain (length (objs s)) (objs s) l k)), s)
       | _ => (Ret VUndef, s)
       end.

(** [v[k] = x] on a plain object: the own property is created or
    overwritten.  Strict mode: assigning on anything else throws. *)
Definition set (v : val) (k : string) (x : val) : H unit :=
  λ s, match v with
       | VObj l =>
           match objs s !! l with
           | Some o => (Ret tt, set_objs (<[l := Obj (proto o) (<[k := x]> (props o))]> (objs s)) s)
           | None => (Throw TypeError, s)
           end
       | _ => (Throw TypeError, s)
       end.

Definition alloc (o : obj) : H val :=
  λ s, (Ret (VObj (length (objs s))), set_objs (objs s ++ [o]) s).

(** [{}] *)
Definition new_object : H val := alloc (Obj VNull ∅).

(** [Object.create(p)] *)
Definition Object_create (p : val) : H val :=
  match p with
  | VObj _ | VNull => alloc (Obj p ∅)
  | _ => throw TypeError
  end.

(** The key list of [for (const key in v)]; nothing for [undefined] and
    [null]. *)
Definition for_in_keys (v : val) : H (list string) :=
  λ s, match v with
       | VObj l => (Ret (elements (chain_keys (length (objs s)) (objs s) l)), s)
       | _ => (Ret [], s)
       end.

(** ** Static fields of component classes *)

Definition as_class (v : val) : H cid :=
  match v with
  | VClass c => ret c
  | _ => throw TypeError
  end.

Definition read_class {A} (c : cid) (f : klass → A) : H A :=
  λ s, match classes s !! c with
       | Some k => (Ret (f k), s)
       | None => (Throw TypeError, s)
       end.

Definition write_class (c : cid) (f : klass → klass) : H unit :=
  λ s, match classes s !! c with
       | Some k => (Ret tt, set_classes (<[c := f k]> (classes s)) s)
       | None => (Throw TypeError, s)
       end.

(** [Ctor.superOptions = v] and [Ctor.options = v] *)
Definition with_superOptions (v : val) (k : klass) : klass :=
  Cls.Make (Cls.options k) (Cls.super k) v (Cls.extendOptions k)
           (Cls.sealedOptions k) (Cls.prototype k).

Definition with_options (v : val) (k : klass) : klass :=
  Cls.Make v (Cls.super k) (Cls.superOptions k) (Cls.extendOptions k)
           (Cls.sealedOptions k) (Cls.prototype k).

(** ** The late-modification diff *)

(** The body of the loop of [resolveModifiedOptions], lines 164-167;
    [modified] is created at the first key that differs.  The value stored
    by [modified[key] = latest[key]] is the one just compared. *)
Definition diff_key (latest sealed modified : val) (key : string) : H val :=
  let! lv := get latest key in
  let! sv := get sealed key in
  if strict_neq lv sv then
    let! modified := (if truthy modified then ret modified else new_object) in
    set modified key lv;;
    ret modified
  else ret modified.

(** [resolveModifiedOptions]: every key of [Ctor.options] whose value is not
    the one in [Ctor.sealedOptions] is copied into a fresh object;
    [undefined] when there is none. *)
Definition resolveModifiedOptions (Ctor : cid) : H val :=
  let! latest := read_class Ctor Cls.options in
  let! sealed := read_class Ctor Cls.sealedOptions in
  let! keys := for_in_keys latest in
  foldM (diff_key latest sealed) keys VUndef.

(** Modelled from the spec: the body of the loop of [extend], which is
    [to[key] = _from[key]]. *)
Definition copy_key (to from : val) (_ : unit) (key : string) : H unit :=
  let! v := get from key in
  set to key v.

(** Modelled from the spec: the helper [extend(to, from)] of the shared
    utilities is not part of this slice.  The spec has the modified keys
    merged into [extendOptions], mutating it in place: every enumerable key
    of [from] is assigned on [to], and [to] is returned. *)
Definition extend (to from : val) : H val :=
  let! keys := for_in_keys from in
  foldM (copy_key to from) keys tt;;
  ret to.

Section Resolver.

(** The Options Merge Engine, [mergeOptions(parent, child, vm)]: it reads
    the store and may allocate and mutate plain objects; the static fields
    of classes are out of its reach. *)
Variable mergeOptions :
  val → val → val → list klass → list obj → outcome val * list obj.

Definition merge (parent child vm : val) : H val :=
  λ s, let '(r, h) := mergeOptions parent child vm (classes s) (objs s) in
       (r, set_objs h s).

(** Lines 135-140: late-modified or late-attached options are merged into
    [Ctor.extendOptions], in place. *)
Definition absorb_late_options (Ctor : cid) : H unit :=
  let! modifiedOptions := resolveModifiedOptions Ctor in
  if truthy modifiedOptions then
    let! ext := read_class Ctor Cls.extendOptions in
    extend ext modifiedOptions;;
    ret tt
  else ret tt.

(** Lines 143-145: [if (options.name) options.components[options.name] = Ctor] *)
Definition self_register (Ctor : cid) (opts : val) : H unit :=
  let! name := get opts "name" in
  if truthy name then
    let! components := get opts "components" in
    set components (to_key name) (VClass Ctor)
  else ret tt.

(** Lines 129-145, the body of [if (superOptions !== cachedSuperOptions)]:
    the cache is refreshed, late options are absorbed, the options are
    merged anew and stored, and a named class registers itself. *)
Definition remerge (Ctor : cid) (superOpts : val) : H val :=
  write_class Ctor (with_superOptions superOpts);;
  absorb_late_options Ctor;;
  let! ext := read_class Ctor Cls.extendOptions in
  let! merged := merge superOpts ext VUndef in
  write_class Ctor (with_options merged);;
  self_register Ctor merged;;
  ret merged.

(** [resolveConstructorOptions(Ctor)]; [fuel] is the depth of call stack
    left, and running out of it is the engine's [RangeError]. *)
Fixpoint resolveConstructorOptions (fuel : nat) (Ctor : cid) : H val :=
  match fuel with
  | O => throw RangeError
  | S fuel' =>
      let! opts := read_class Ctor Cls.options in
      let! parent := read_class Ctor Cls.super in
      match parent with
      | Some Super =>
          let! superOpts := resolveConstructorOptions fuel' Super in
          let! cachedSuperOptions := read_class Ctor Cls.superOptions in
          if strict_neq superOpts cachedSuperOptions then
            remerge Ctor superOpts
          else ret opts
      | None => ret opts
      end
  end.

(** ** The fast path for internal components *)

Definition initInternalComponent (vm options : val) : H unit :=
  let! ctor := get vm "constructor" in
  let! Ctor := as_class ctor in
  let! ctorOptions := read_class Ctor Cls.options in
  let! opts := Object_create ctorOptions in
  set vm "$options" opts;;
  let! parentVnode := get options "_parentVnode" in
  let! parent := get options "parent" in
  set opts "parent" parent;;
  set opts "_parentVnode" parentVnode;;
  let! vnodeComponentOptions := get parentVnode "componentOptions" in
  let! propsData := get vnodeComponentOptions "propsData" in
  set opts "propsData" propsData;;
  let! listeners := get vnodeComponentOptions "listeners" in
  set opts "_parentListeners" listeners;;
  let! children := get vnodeComponentOptions "children" in
  set opts "_renderChildren" children;;
  let! tag := get vnodeComponentOptions "tag" in
  set opts "_componentTag" tag;;
  let! render := get options "render" in
  if truthy render then
    set opts "render" render;;
    let! staticRenderFns := get options "staticRenderFns" in
    set opts "staticRenderFns" staticRenderFns
  else ret tt.

End Resolver.

(** ** The system state: store, uid counter and event log *)

(** Milestones of one construction, in the words of the initialiser. *)
Inductive step : Type :=
| SUid
| SProxy
| SSelf
| SLifecycle
| SEvents
| SRender
| SHook (name : string)
| SInjections
| SState
| SProvide
| SMount (el : val).

Inductive event : Type :=
| Ev (id : Z) (vm : val) (st : step)
| EWarn (msg : string).

#[global] Instance step_eq_dec : EqDecision step.
Proof. solve_decision. Defined.

(** [uid] is the module-level [let uid = 0]; [log] is the record of the
    operations performed so far. *)
Record sys : Type := Sys { sstore : store; uid : Z; log : list event }.

Definition init_sys (s : store) : sys := Sys s 0 [].

Definition lift {A} (m : H A) : M sys A :=
  λ y, let '(r, s) := m (sstore y) in (r, Sys s (uid y) (log y)).

Definition emit (e : event) : M sys unit :=
  λ y, (Ret tt, Sys (sstore y) (uid y) (log y ++ [e])).

(** 2^53: up to here every integer is a JavaScript number, and the next
    one, 2^53 + 1, is not. *)
Definition uid_limit : Z := 9007199254740992.

(** [uid + 1] on the values that the counter takes, the integers from 0 to
    2^53: at 2^53 the sum rounds back to 2^53. *)
Definition next_uid (u : Z) : Z :=
  if decide (u < uid_limit)%Z then (u + 1)%Z else u.

(** [uid++], on behalf of the construction of [vm]: the value taken is
    recorded in the log. *)
Definition fresh_uid (vm : val) : M sys Z :=
  λ y, (Ret (uid y),
        Sys (sstore y) (next_uid (uid y)) (log y ++ [Ev (uid y) vm SUid])).

(** The milestone that an operation of the initialiser is, if any: a call
    of an imported function, by its name and arguments; an assignment on
    the instance, by its key; a method call on the instance, by the name
    of the method and its arguments. *)
Definition step_of_call (name : string) (args : list val) : option step :=
  match name, args with
  | "initProxy", [_] => Some SProxy
  | "initLifecycle", [_] => Some SLifecycle
  | "initEvents", [_] => Some SEvents
  | "initRender", [_] => Some SRender
  | "callHook", [_; VStr hook] => Some (SHook hook)
  | "initInjections", [_] => Some SInjections
  | "initState", [_] => Some SState
  | "initProvide", [_] => Some SProvide
  | _, _ => None
  end.

Definition step_of_key (key : string) : option step :=
  match key with
  | "_renderProxy" => Some SProxy
  | "_self" => Some SSelf
  | _ => None
  end.

Definition step_of_method (name : string) (args : list val) : option step :=
  match name, args with
  | "$mount", [el] => Some (SMount el)
  | _, _ => None
  end.

(** The operation on [vm] that is the milestone [st] is entered in the
    log, for the construction [id]. *)
Definition note (id : Z) (vm : val) (st : option step) : M sys unit :=
  match st with
  | Some st => emit (Ev id vm st)
  | None => ret tt
  end.

(** ** Code of the environment *)

(** What a function outside this slice may do: update the store at will,
    build instances (calling the initialiser on a receiver, and going on
    whether it returned or threw), return or throw.  It has no access to
    the counter. *)
Inductive script : Type :=
| Done (v : val)
| Fail (e : err)
| Act (f : store → store) (k : store → script)
| Construct (vm options : val) (k : outcome unit → script).

Section Exec.

Variable init : val → val → M sys unit.

Fixpoint exec (sc : script) : M sys val :=
  match sc with
  | Done v => ret v
  | Fail e => throw e
  | Act f k => λ y, exec (k (sstore y)) (Sys (f (sstore y)) (uid y) (log y))
  | Construct vm options k =>
      λ y, let '(r, y') := init vm options y in exec (k r) y'
  end.

(** [callee.call(this, ...args)] *)
Definition call_val (extern : val → val → list val → script)
    (callee this : val) (args : list val) : M sys val :=
  match callee with
  | VFun FInit => init this (hd VUndef args);; ret VUndef
  | VFun (FExt _) | VClass _ => exec (extern callee this args)
  | _ => throw TypeError
  end.

End Exec.

(** [v instanceof C]: is [C.prototype] on the prototype chain of [v]? *)
Fixpoint on_chain (n : nat) (h : list obj) (l : loc) (target : val) : bool :=
  match n with
  | O => false
  | S n' =>
      match h !! l with
      | None => false
      | Some o =>
          match proto o with
          | VObj p => bool_decide (VObj p = target) || on_chain n' h p target
          | _ => false
          end
      end
  end.

Definition instanceof (v : val) (C : cid) : H bool :=
  match v with
  | VObj l =>
      let! target := read_class C Cls.prototype in
      match target with
      | VObj _ => λ s, (Ret (on_chain (length (objs s)) (objs s) l target), s)
      | _ => throw TypeError
      end
  | _ => ret false
  end.

Section Instance.

Variable mergeOptions :
  val → val → val → list klass → list obj → outcome val * list obj.

(** [process.env.NODE_ENV === "production"] *)
Variable production : bool.

(** The functions of the environment, by callee value: the imported
    [initProxy], [callHook], ... are [VFun (FExt name)]. *)
Variable extern : val → val → list val → script.

Section Body.

(** The initialiser as seen from one stack frame down. *)
Variable init : val → val → M sys unit.
Variable fuel : nat.

(** [name(...args)], for a function imported from another module: the
    call is entered in the log, then the callee runs. *)
Definition import (id : Z) (name : string) (args : list val) : M sys unit :=
  note id (hd VUndef args) (step_of_call name args);;
  exec init (extern (VFun (FExt name)) VUndef args);;
  ret tt.

(** [vm[key] = x], entered in the log once it is done. *)
Definition assign (id : Z) (vm : val) (key : string) (x : val) : M sys unit :=
  lift (set vm key x);;
  note id vm (step_of_key key).

(** [vm[name](...args)]: the method is looked up, the call is entered in
    the log, then the method runs with [vm] as its receiver. *)
Definition invoke (id : Z) (vm : val) (name : string) (args : list val)
    : M sys val :=
  let! f := lift (get vm name) in
  note id vm (step_of_method name args);;
  call_val init extern f vm args.

(** Lines 27-81 of [_init], for the construction that took the uid [id]:
    from [vm._isVue = true] to the [created] hook. *)
Definition init_rest (id : Z) (vm options : val) : M sys unit :=
  lift (set vm "_isVue" (VBool true));;
  let! fast :=
    (if truthy options then
       let! c := lift (get options "_isComponent") in ret (truthy c)
     else ret false) in
  (if fast then
     lift (initInternalComponent vm options)
   else
     let! ctor := lift (get vm "constructor") in
     let! Ctor := lift (as_class ctor) in
     let! base := lift (resolveConstructorOptions mergeOptions fuel Ctor) in
     let! child := (if truthy options then ret options else lift new_object) in
     let! merged := lift (merge mergeOptions base child vm) in
     lift (set vm "$options" merged));;
  (if production then assign id vm "_renderProxy" vm
   else import id "initProxy" [vm]);;
  assign id vm "_self" vm;;
  import id "initLifecycle" [vm];;
  import id "initEvents" [vm];;
  import id "initRender" [vm];;
  import id "callHook" [vm; VStr "beforeCreate"];;
  import id "initInjections" [vm];;
  import id "initState" [vm];;
  import id "initProvide" [vm];;
  import id "callHook" [vm; VStr "created"].

(** Lines 24-81 of [_init], for the construction that took the uid [id]:
    the assignment of [vm._uid = uid++] and everything up to the [created]
    hook. *)
Definition init_body (id : Z) (vm options : val) : M sys unit :=
  lift (set vm "_uid" (VNum id));;
  init_rest id vm options.

(** Lines 84-87: [if (vm.$options.el) vm.$mount(vm.$options.el)]. *)
Definition auto_mount (id : Z) (vm : val) : M sys unit :=
  let! opts := lift (get vm "$options") in
  let! el := lift (get opts "el") in
  if truthy el then
    invoke id vm "$mount" [el];;
    ret tt
  else ret tt.

End Body.

(** [Vue.prototype._init]; [fuel] is the depth of call stack left. *)
Fixpoint _init (fuel : nat) (vm options : val) : M sys unit :=
  match fuel with
  | O => throw RangeError
  | S fuel' =>
      let! id := fresh_uid vm in
      init_body (_init fuel') fuel' id vm options;;
      auto_mount (_init fuel') id vm
  end.

(** ** The constructor function *)

Definition warning : string :=
  "Vue is a constructor and should be called with the `new` keyword".

(** [function Vue(options)] of [index.js], with its receiver explicit;
    [VueCtor] is the class itself. *)
Definition Vue (fuel : nat) (VueCtor : cid) (this options : val) : M sys unit :=
  let! misuse :=
    (if negb production then
       let! inst := lift (instanceof this VueCtor) in ret (negb inst)
     else ret false) in
  (if misuse then
     emit (EWarn warning);;
     exec (_init fuel) (extern (VFun (FExt "warn")) VUndef [VStr warning]);;
     ret tt
   else ret tt);;
  let! f := lift (get this "_init") in
  call_val (_init fuel) extern f this [options];;
  ret tt.

End Instance.

(** * Specification vocabulary *)

(** Prototypes are older than the objects that inherit from them: they are
    fixed when an object is created ([Object.create], [new]). *)
Definition heap_wf (h : list obj) : Prop :=
  ∀ l o p, h !! l = Some o → proto o = VObj p → p < l.

(** A value that does not point outside the heap. *)
Definition val_ok (h : list obj) (v : val) : Prop :=
  match v with
  | VObj l => l < length h
  | _ => True
  end.

(** The properties of an object as [for-in] and property reads see them:
    own ones first, then those of the prototype chain. *)
Fixpoint flat_chain (n : nat) (h : list obj) (l : loc) : gmap string val :=
  match n with
  | O => ∅
  | S n' =>
      match h !! l with
      | None => ∅
      | Some o =>
          props o ∪
          match proto o with
          | VObj p => flat_chain n' h p
          | _ => ∅
          end
      end
  end.

Definition flat (h : list obj) (v : val) : gmap string val :=
  match v with
  | VObj l => flat_chain (length h) h l
  | _ => ∅
  end.

(** [v[k]] as a value, for [v] not [undefined] or [null]. *)
Definition field (h : list obj) (v : val) (k : string) : val :=
  default VUndef (flat h v !! k).

(** The late modifications: the keys of [latest] whose value is not the
    one [sealed] has. *)
Definition late_options (h : list obj) (latest sealed : val) : gmap string val :=
  filter (λ kv, kv.2 ≠ field h sealed kv.1) (flat h latest).

(** [height ct C d]: the root of the [super] chain is [d] steps above [C]. *)
Inductive height (ct : list klass) : cid → nat → Prop :=
| height_root C k :
    ct !! C = Some k → Cls.super k = None → height ct C 0
| height_sub C k P d :
    ct !! C = Some k → Cls.super k = Some P → height ct P d →
    height ct C (S d).

(** [ancestor ct C A]: [A] is [C] or above it. *)
Inductive ancestor (ct : list klass) : cid → cid → Prop :=
| ancestor_refl C : ancestor ct C C
| ancestor_step C k P A :
    ct !! C = Some k → Cls.super k = Some P → ancestor ct P A →
    ancestor ct C A.

(** Every class on the chain of [C] caches the current options of its
    parent: nothing is left to re-merge. *)
Fixpoint settled (n : nat) (ct : list klass) (C : cid) : bool :=
  match n with
  | O => false
  | S n' =>
      match ct !! C with
      | None => false
      | Some k =>
          match Cls.super k with
          | None => true
          | Some P =>
              settled n' ct P &&
              match ct !! P with
              | Some kp => bool_decide (Cls.options kp = Cls.superOptions k)
              | None => false
              end
          end
      end
  end.

(** Effects on the store, as preorders: every run of [m] takes a store
    to an [R]-related one. *)

Definition respects {S A} (R : relation S) (m : M S A) : Prop :=
  ∀ s, R s (m s).2.

(** The class table is out of reach of heap operations. *)
Definition same_classes : relation store := λ s s', classes s' = classes s.

(** A relation that only looks at the class table. *)
Definition on_classes (R : relation store) : Prop :=
  ∀ s s', classes s' = classes s → R s s'.

(** Only [superOptions] and [options] are ever assigned. *)
Definition same_shape : relation store := λ s s',
  length (classes s') = length (classes s) ∧
  ∀ c k, classes s !! c = Some k →
    ∃ k', classes s' !! c = Some k' ∧
      Cls.super k' = Cls.super k ∧
      Cls.extendOptions k' = Cls.extendOptions k ∧
      Cls.sealedOptions k' = Cls.sealedOptions k ∧
      Cls.prototype k' = Cls.prototype k.

(** The class [c] is left alone. *)
Definition same_class (c : cid) : relation store := λ s s',
  classes s' !! c = classes s !! c.

(** The heap never shrinks. *)
Definition heap_grows : relation store := λ s s',
  length (objs s) ≤ length (objs s').

(** A relation that only looks at the heap. *)
Definition on_objs (R : relation store) : Prop :=
  ∀ s s', objs s' = objs s → R s s'.

(** A merge engine that returns a freshly allocated object, as the one of
    [util/options.js] does ([const options = {}]). *)
Definition merge_allocates
    (mergeOptions : val → val → val → list klass → list obj → outcome val * list obj)
    : Prop :=
  ∀ p c v ct h r h', mergeOptions p c v ct h = (r, h') →
    length h ≤ length h' ∧
    ∀ x, r = Ret x → ∃ l, x = VObj l ∧ length h ≤ l.

(** The cached [superOptions] of the classes point into the heap. *)
Definition cache_ok (s : store) : Prop :=
  ∀ c k, classes s !! c = Some k → val_ok (objs s) (Cls.superOptions k).

(** [sealedOptions] holds the same properties as [options]: it is a
    snapshot of them, as [extend({}, options)] makes one. *)
Definition sealed_snapshot (s : store) (C : cid) : Prop :=
  ∃ k, classes s !! C = Some k ∧
       flat (objs s) (Cls.sealedOptions k) = flat (objs s) (Cls.options k).

(** ** A small world to run the code in *)

(** A merge engine in which the child wins key by key. *)
Definition shallow_merge (parent child vm : val) (ct : list klass) (h : list obj)
    : outcome val * list obj :=
  (Ret (VObj (length h)), h ++ [Obj VNull (flat h child ∪ flat h parent)]).



(** The heap of [demo]: the root options after a global mixin (0), the
    shared component registry (1), the root options as they were when the
    subclass was defined (2), the subclass's [extendOptions] (3), its
    [options] with a key attached after sealing (4), its [sealedOptions]
    (5), the two prototypes (6, 7) and an instance of the subclass (8). *)
Definition demo_objs : list obj :=
  [ Obj VNull (<["components" := VObj 1]> (<["a" := VNum 1]> ∅));
    Obj VNull ∅;
    Obj VNull (<["components" := VObj 1]> ∅);
    Obj VNull (<["name" := VStr "child"]> (<["b" := VNum 2]> ∅));
    Obj VNull (<["components" := VObj 1]> (<["name" := VStr "child"]>
              (<["b" := VNum 2]> (<["late" := VNum 7]> ∅))));
    Obj VNull (<["components" := VObj 1]> (<["name" := VStr "child"]>
              (<["b" := VNum 2]> ∅)));
    Obj VNull (<["constructor" := VClass 0]> (<["_init" := VFun FInit]>
              (<["$mount" := VFun (FExt "$mount")]> ∅)));
    Obj (VObj 6) (<["constructor" := VClass 1]> ∅);
    Obj (VObj 7) ∅ ].

(** The root class (0) and a subclass (1) whose cache is stale. *)
Definition demo_classes : list klass :=
  [ Cls.Make (VObj 0) None VUndef VUndef VUndef (VObj 6);
    Cls.Make (VObj 4) (Some 0) (VObj 2) (VObj 3) (VObj 5) (VObj 7) ].

Definition demo : store := Store demo_objs demo_classes.


(** [demo] once the subclass has been resolved. *)
Definition demo_resolved : store :=
  (resolveConstructorOptions shallow_merge 2 1 demo).2.



(** One round of the loop of [resolveModifiedOptions], on the map built so
    far. *)
Definition late_step (h : list obj) (latest sealed : val)
    (acc : gmap string val) (key : string) : gmap string val :=
  if strict_neq (field h latest key) (field h sealed key)
  then <[key := field h latest key]> acc else acc.

(** The value of [modified] and the heap, for the map built so far. *)
Definition modified_at (h : list obj) (acc : gmap string val) : val * list obj :=
  if decide (acc = ∅) then (VUndef, h)
  else (VObj (length h), h ++ [Obj VNull acc]).

(** The keys that [initInternalComponent] assigns on the new [$options]. *)
Definition internal_keys (render : val) : list string :=
  ["parent"; "_parentVnode"; "propsData"; "_parentListeners";
   "_renderChildren"; "_componentTag"] ++
  (if truthy render then ["render"; "staticRenderFns"] else []).

(** The heap while [initInternalComponent] runs: the instance at [v] has
    got its [$options], and the new object, last in the heap, has the
    prototype [ctorOptions] and the own properties [po] assigned so far. *)
Definition internal_heap (h0 : list obj) (v : loc) (ctorOptions : val)
    (po : gmap string val) : list obj :=
  match h0 !! v with
  | Some vo =>
      <[v := Obj (proto vo) (<["$options" := VObj (length h0)]> (props vo))]> h0
      ++ [Obj ctorOptions po]
  | None => h0
  end.

(** [demo] with what the renderer supplies for a child: props data (9),
    the component-options payload of the virtual node (10), the virtual
    node (11), the internal options (12), and the child instance under
    construction (13), whose parent is the instance 8. *)
Definition demo_fast_objs : list obj :=
  demo_objs ++
  [ Obj VNull (<["msg" := VStr "hi"]> ∅);
    Obj VNull (<["propsData" := VObj 9]> (<["tag" := VStr "child"]> ∅));
    Obj VNull (<["componentOptions" := VObj 10]> ∅);
    Obj VNull (<["_isComponent" := VBool true]> (<["_parentVnode" := VObj 11]>
              (<["parent" := VObj 8]> ∅)));
    Obj (VObj 7) ∅ ].

Definition demo_fast : store := Store demo_fast_objs demo_classes.

(** [demo_fast] once the child's [$options] have been built. *)
Definition demo_child : store :=
  (initInternalComponent (VObj 13) (VObj 12) demo_fast).2.

(** The uids taken by the constructions, in order. *)
Definition uids (l : list event) : list Z :=
  omap (λ e, match e with Ev id _ SUid => Some id | _ => None end) l.

(** The milestones of the construction [id], in order. *)
Definition steps_of (id : Z) (l : list event) : list step :=
  omap (λ e, match e with
             | Ev id' _ st => if decide (id' = id) then Some st else None
             | EWarn _ => None
             end) l.

(** [a; a+1; ...; a+n-1] *)
Definition zseq (a : Z) (n : nat) : list Z :=
  (λ i : nat, (a + Z.of_nat i)%Z) <$> seq 0 n.

(** The fixed order of the initialiser, up to the [created] hook. *)
Definition lifecycle : list step :=
  [SUid; SProxy; SSelf; SLifecycle; SEvents; SRender; SHook "beforeCreate";
   SInjections; SState; SProvide; SHook "created"].

(** [min a 2^53; min (a+1) 2^53; ...], [n] values: what [n] increments
    starting at [a] take. *)
Definition zsat (a : Z) (n : nat) : list Z :=
  (λ i : nat, (a + Z.of_nat i) `min` uid_limit)%Z <$> seq 0 n.

(** From a state whose counter has reached [b]: the counter does not go
    down, the log is extended, and the new events belong to constructions
    numbered [b] or more.  As long as the counter has not gone past 2^53
    it stays so, and the uids taken are the successive values of the
    counter. *)
Definition evolves (b : Z) : relation sys := λ y y',
  (b ≤ uid y)%Z →
  (uid y ≤ uid y')%Z ∧
  ∃ l, log y' = log y ++ l ∧
       (∀ id vm st, Ev id vm st ∈ l → (b ≤ id)%Z) ∧
       ((uid y ≤ uid_limit)%Z →
        (uid y' ≤ uid_limit)%Z ∧
        uids l = zsat (uid y) (length (uids l)) ∧
        uid y' = ((uid y + Z.of_nat (length (uids l))) `min` uid_limit)%Z).





(** [demo_fast] with the options of a root instance (14). *)
Definition demo_app : store :=
  Store (demo_fast_objs ++ [Obj VNull (<["el" := VStr "#app"]> ∅)]) demo_classes.

(** An environment in which the [created] hook of the instance 8 builds the
    child 13 from the internal options 12, and nothing else happens. *)
Definition demo_extern (callee this : val) (args : list val) : script :=
  if bool_decide (callee = VFun (FExt "callHook") ∧
                  args = [VObj 8; VStr "created"])
  then Construct (VObj 13) (VObj 12) (λ _, Done VUndef)
  else Done VUndef.

(** The development build of the initialiser in that environment. *)
Definition demo_init : nat → val → val → M sys unit :=
  _init shallow_merge false demo_extern.

(** What the annotations allow for an options value: an object,
    [undefined] or [null]. *)
Definition optional_object (v : val) : Prop :=
  match v with
  | VObj _ | VUndef | VNull => True
  | _ => False
  end.

(** [cyclic ct C]: following [super] from [C] leads back to [C]. *)
Definition cyclic (ct : list klass) (C : cid) : Prop :=
  ∃ k P, ct !! C = Some k ∧ Cls.super k = Some P ∧ ancestor ct P C.

(** A class that is its own parent. *)
Definition demo_loop : store :=
  Store [] [Cls.Make VUndef (Some 0) VUndef VUndef VUndef VUndef].

(** A root class whose options were replaced (0) after a subclass cached
    the former ones (1); the subclass has the extension options [ext] (2),
    and its [options] (3) and [sealedOptions] (4) hold the same. *)
Definition demo_bare (ext : gmap string val) : store :=
  Store [ Obj VNull (<["a" := VNum 1]> ∅); Obj VNull ∅;
          Obj VNull ext; Obj VNull ext; Obj VNull ext ]
        [ Cls.Make (VObj 0) None VUndef VUndef VUndef VUndef;
          Cls.Make (VObj 3) (Some 0) (VObj 1) (VObj 2) (VObj 4) VUndef ].

(** Relative to a heap that had [b] objects: the class table is kept, the
    heap only grows, and of the objects below [b] none changes its
    prototype and only [vm] is written to, at the key [$options]. *)
Definition touches_only (vm : val) (b : nat) : relation store := λ s s',
  b ≤ length (objs s) →
  classes s' = classes s ∧
  length (objs s) ≤ length (objs s') ∧
  ∀ l o, l < b → objs s !! l = Some o →
    ∃ o', objs s' !! l = Some o' ∧ proto o' = proto o ∧
          (VObj l ≠ vm → props o' = props o) ∧
          (∀ key, key ≠ "$options" → props o' !! key = props o !! key).

(** An environment whose functions return at once and leave the store
    alone. *)
Definition inert (extern : val → val → list val → script) : Prop :=
  ∀ callee this args, ∃ v, extern callee this args = Done v.

(** The own properties of an instance once lines 55-62 have run over the
    properties [p]. *)
Definition marked (production : bool) (vm : val) (p : gmap string val)
    : gmap string val :=
  <["_self" := vm]> (if production then <["_renderProxy" := vm]> p else p).

(** The own properties of an instance once lines 24-27 have run. *)
Definition numbered (id : Z) (p : gmap string val) : gmap string val :=
  <["_isVue" := VBool true]> (<["_uid" := VNum id]> p).

(** An environment in which nothing happens. *)
Definition demo_idle (callee this : val) (args : list val) : script :=
  Done VUndef.

(** [demo_app] with a root prototype that has no [$mount] method, as in a
    build without a platform entry. *)
Definition demo_nomount : store :=
  set_objs (<[6 := Obj VNull (<["constructor" := VClass 0]>
                              (<["_init" := VFun FInit]> ∅))]> (objs demo_app))
           demo_app.

(** * Proofs *)

(** ** The monad *)

Lemma bind_ret_run {S A B} (m : M S A) (k : A → M S B) s a s' :
  m s = (Ret a, s') → bind m k s = k a s'.
Proof. intros E. unfold bind. by rewrite E. Qed.

Lemma bind_throw_run {S A B} (m : M S A) (k : A → M S B) s e s' :
  m s = (Throw e, s') → bind m k s = (Throw e, s').
Proof. intros E. unfold bind. by rewrite E. Qed.

Lemma bind_inv_ret {S A B} (m : M S A) (k : A → M S B) s b s' :
  bind m k s = (Ret b, s') → ∃ a s1, m s = (Ret a, s1) ∧ k a s1 = (Ret b, s').
Proof.
  unfold bind. destruct (m s) as [[a|e] s1]; [eauto | discriminate].
Qed.

Lemma bind_inv {S A B} (m : M S A) (k : A → M S B) s r s' :
  bind m k s = (r, s') →
  (∃ a s1, m s = (Ret a, s1) ∧ k a s1 = (r, s')) ∨
  (∃ e, m s = (Throw e, s') ∧ r = Throw e).
Proof.
  unfold bind. destruct (m s) as [[a|e] s1]; intros E.
  - left. eauto.
  - right. inversion E; subst. eauto.
Qed.

Lemma strict_neq_false a b : strict_neq a b = false ↔ a = b.
Proof. unfold strict_neq. case_bool_decide; naive_solver. Qed.

Lemma strict_neq_true a b : strict_neq a b = true ↔ a ≠ b.
Proof. unfold strict_neq. case_bool_decide; naive_solver. Qed.

(** ** Flattened prototype chains *)

Lemma lookup_chain_flat n h l k :
  lookup_chain n h l k = flat_chain n h l !! k.
Proof.
  revert l. induction n as [|n IH]; intros l; simpl; [done|].
  destruct (h !! l) as [o|]; [|done].
  rewrite lookup_union.
  destruct (props o !! k) as [v|] eqn:E.
  - by rewrite union_Some_l.
  - rewrite (left_id_L None (∪)).
    destruct (proto o); rewrite ?lookup_empty ?IH //.
Qed.

Lemma chain_keys_flat n h l : chain_keys n h l = dom (flat_chain n h l).
Proof.
  revert l. induction n as [|n IH]; intros l; simpl; [by rewrite dom_empty_L|].
  destruct (h !! l) as [o|]; [|by rewrite dom_empty_L].
  rewrite dom_union_L. f_equal.
  destruct (proto o); rewrite ?dom_empty_L //.
Qed.

Lemma get_run v k s :
  v ≠ VUndef → v ≠ VNull → get v k s = (Ret (field (objs s) v k), s).
Proof.
  intros ??. unfold get, field, flat.
  destruct v; try done; by rewrite ?lookup_chain_flat ?lookup_empty.
Qed.

Lemma for_in_keys_run v s :
  for_in_keys v s = (Ret (elements (dom (flat (objs s) v))), s).
Proof.
  unfold for_in_keys, flat.
  destruct v; rewrite ?dom_empty_L ?elements_empty ?chain_keys_flat //.
Qed.

(** Two heaps that agree below [b] give the same chain to an object below
    [b], whatever fuel above its address is supplied. *)
Lemma flat_chain_agree h h' b n n' l :
  heap_wf h → (∀ i, i < b → h' !! i = h !! i) →
  l < b → l < n → l < n' →
  flat_chain n' h' l = flat_chain n h l.
Proof.
  intros Hwf Hag. revert n' l.
  induction n as [|n IH]; intros n' l Hb Hn Hn'; [lia|].
  destruct n' as [|n']; [lia|]. simpl.
  rewrite Hag //. destruct (h !! l) as [o|] eqn:Eo; [|done].
  f_equal. destruct (proto o) eqn:Ep; try done.
  pose proof (Hwf _ _ _ Eo Ep). apply IH; lia.
Qed.

Lemma flat_agree h h' v :
  heap_wf h → val_ok h v → length h ≤ length h' →
  (∀ i, i < length h → h' !! i = h !! i) →
  flat h' v = flat h v.
Proof.
  intros Hwf Hv Hlen Hag. destruct v; try done. simpl in *.
  eapply flat_chain_agree; eauto; lia.
Qed.

Lemma field_agree h h' v k :
  heap_wf h → val_ok h v → length h ≤ length h' →
  (∀ i, i < length h → h' !! i = h !! i) →
  field h' v k = field h v k.
Proof. intros. unfold field. by rewrite (flat_agree h h'). Qed.

(** ** Effects on the store, as preorders *)

Lemma respects_ret {S A} (R : relation S) `{!Reflexive R} (a : A) :
  respects R (ret a).
Proof. intros s. simpl. reflexivity. Qed.

Lemma respects_throw {S A} (R : relation S) `{!Reflexive R} e :
  respects R (throw (A:=A) e).
Proof. intros s. simpl. reflexivity. Qed.

Lemma respects_bind {S A B} (R : relation S) `{!Transitive R}
    (m : M S A) (k : A → M S B) :
  respects R m → (∀ a, respects R (k a)) → respects R (bind m k).
Proof.
  intros Hm Hk s. unfold bind. specialize (Hm s).
  destruct (m s) as [[a|e] s1]; simpl in *; [|done].
  etrans; [exact Hm | apply Hk].
Qed.

Lemma respects_if {S A} (R : relation S) (b : bool) (m1 m2 : M S A) :
  respects R m1 → respects R m2 → respects R (if b then m1 else m2).
Proof. by destruct b. Qed.

Lemma respects_foldM {S A B} (R : relation S) `{!Reflexive R, !Transitive R}
    (body : A → B → M S A) xs acc :
  (∀ a x, respects R (body a x)) → respects R (foldM body xs acc).
Proof.
  intros Hb. revert acc. induction xs as [|x xs IH]; intros acc; simpl.
  - by apply respects_ret.
  - apply respects_bind; [done | apply Hb | apply IH].
Qed.

Lemma respects_read R `{!Reflexive R} {A} c (f : klass → A) :
  respects R (read_class c f).
Proof. intros s. unfold read_class. destruct (_ !! _); simpl; reflexivity. Qed.

Lemma respects_as_class R `{!Reflexive R} v : respects R (as_class v).
Proof. intros s. unfold as_class. destruct v; simpl; reflexivity. Qed.

Lemma respects_get R `{!Reflexive R} v k : respects R (get v k).
Proof. intros s. unfold get. destruct v; simpl; reflexivity. Qed.

Lemma respects_for_in R `{!Reflexive R} v : respects R (for_in_keys v).
Proof. intros s. unfold for_in_keys. destruct v; simpl; reflexivity. Qed.

#[global] Instance same_classes_refl : Reflexive same_classes.
Proof. by intros s. Qed.
#[global] Instance same_classes_trans : Transitive same_classes.
Proof. intros s1 s2 s3 H1 H2. unfold same_classes in *. congruence. Qed.

Lemma respects_set R (HR : on_classes R) v k x : respects R (set v k x).
Proof.
  intros s. apply HR. unfold set.
  destruct v; try done. by destruct (_ !! _).
Qed.

Lemma respects_alloc R (HR : on_classes R) o : respects R (alloc o).
Proof. intros s. by apply HR. Qed.

Lemma respects_Object_create R (HR : on_classes R) p :
  respects R (Object_create p).
Proof. intros s. apply HR. by destruct p. Qed.

Lemma respects_merge R (HR : on_classes R) mo p c v :
  respects R (merge mo p c v).
Proof. intros s. apply HR. unfold merge. by destruct (mo _ _ _ _ _). Qed.

Lemma on_classes_same : on_classes same_classes.
Proof. by intros s s' E. Qed.

(** [prim] closes the goals about the primitives that write the heap. *)
Ltac respects_step prim :=
  lazymatch goal with
  | |- respects _ (bind _ _) => apply respects_bind; [tc_solve | | intros ?]
  | |- respects _ (foldM _ _ _) =>
      apply respects_foldM; [tc_solve | tc_solve | intros ? ?]
  | |- respects _ (if _ then _ else _) => apply respects_if
  | |- respects _ (match ?o with _ => _ end) => destruct o
  | |- respects _ (ret _) => apply respects_ret; tc_solve
  | |- respects _ (throw _) => apply respects_throw; tc_solve
  | |- respects _ (read_class _ _) => apply respects_read; tc_solve
  | |- respects _ (as_class _) => apply respects_as_class; tc_solve
  | |- respects _ (get _ _) => apply respects_get; tc_solve
  | |- respects _ (for_in_keys _) => apply respects_for_in; tc_solve
  | |- respects _ (set _ _ _) => prim
  | |- respects _ (alloc _) => prim
  | |- respects _ new_object => prim
  | |- respects _ (Object_create _) => prim
  | |- respects _ (merge _ _ _ _) => prim
  end.

Ltac on_classes_prim HR :=
  first [ apply respects_set | apply respects_alloc
        | apply respects_Object_create | apply respects_merge ];
  exact HR.

Ltac respects_tac HR := repeat respects_step ltac:(on_classes_prim HR).

Section R.
Context (R : relation store) `{!Reflexive R, !Transitive R} (HR : on_classes R).

Lemma respects_resolveModifiedOptions C : respects R (resolveModifiedOptions C).
Proof. unfold resolveModifiedOptions, diff_key. respects_tac HR. Qed.

Lemma respects_extend a b : respects R (extend a b).
Proof. unfold extend, copy_key. respects_tac HR. Qed.

Lemma respects_absorb C : respects R (absorb_late_options C).
Proof.
  unfold absorb_late_options. respects_tac HR.
  - apply respects_resolveModifiedOptions.
  - apply respects_extend.
Qed.

Lemma respects_self_register C o : respects R (self_register C o).
Proof. unfold self_register. respects_tac HR. Qed.

Lemma respects_initInternalComponent vm o : respects R (initInternalComponent vm o).
Proof. unfold initInternalComponent. respects_tac HR. Qed.
End R.

(** ** What resolution does to the class table *)

#[global] Instance same_shape_refl : Reflexive same_shape.
Proof. intros s. split; [done|]. intros c k E. by exists k. Qed.

#[global] Instance same_shape_trans : Transitive same_shape.
Proof.
  intros s1 s2 s3 [L1 H1] [L2 H2]. split; [congruence|].
  intros c k E. destruct (H1 _ _ E) as (k' & E' & ? & ? & ? & ?).
  destruct (H2 _ _ E') as (k'' & E'' & ? & ? & ? & ?).
  exists k''. repeat split; congruence.
Qed.

Lemma on_classes_shape : on_classes same_shape.
Proof. intros s s' E. unfold same_shape. rewrite E. apply same_shape_refl. Qed.

#[global] Instance same_class_refl c : Reflexive (same_class c).
Proof. by intros s. Qed.
#[global] Instance same_class_trans c : Transitive (same_class c).
Proof. intros s1 s2 s3 H1 H2. unfold same_class in *. congruence. Qed.

Lemma on_classes_class c : on_classes (same_class c).
Proof. intros s s' E. unfold same_class. by rewrite E. Qed.

Lemma write_class_shape C f :
  (∀ k, Cls.super (f k) = Cls.super k ∧
        Cls.extendOptions (f k) = Cls.extendOptions k ∧
        Cls.sealedOptions (f k) = Cls.sealedOptions k ∧
        Cls.prototype (f k) = Cls.prototype k) →
  respects same_shape (write_class C f).
Proof.
  intros Hf s. unfold write_class.
  destruct (classes s !! C) as [k0|] eqn:E0; simpl; [|reflexivity].
  split; [by rewrite length_insert|]. intros c k E.
  destruct (decide (c = C)) as [->|Hne].
  - exists (f k0). rewrite list_lookup_insert_eq.
    + simplify_eq. split; [done | apply Hf].
    + by apply (lookup_lt_Some _ _ _ E0).
  - exists k. rewrite list_lookup_insert_ne; [done | congruence].
Qed.

Lemma write_class_other c C f :
  c ≠ C → respects (same_class c) (write_class C f).
Proof.
  intros Hne s. unfold write_class, same_class.
  destruct (classes s !! C); simpl; [|done].
  rewrite list_lookup_insert_ne; [done | congruence].
Qed.

Section Resolve.
Variable mergeOptions :
  val → val → val → list klass → list obj → outcome val * list obj.
Abbreviation resolve := (resolveConstructorOptions mergeOptions).

Lemma remerge_shape C sup : respects same_shape (remerge mergeOptions C sup).
Proof.
  unfold remerge. respects_tac on_classes_shape.
  - by apply write_class_shape.
  - apply (respects_absorb _ on_classes_shape).
  - by apply write_class_shape.
  - apply (respects_self_register _ on_classes_shape).
Qed.

Lemma resolve_shape n C : respects same_shape (resolve n C).
Proof.
  revert C. induction n as [|n IH]; intros C; simpl;
    respects_tac on_classes_shape; [apply IH | apply remerge_shape].
Qed.

Lemma remerge_other c C sup :
  c ≠ C → respects (same_class c) (remerge mergeOptions C sup).
Proof.
  intros Hne. pose proof (on_classes_class c) as HR.
  unfold remerge. respects_tac HR.
  - by apply write_class_other.
  - apply (respects_absorb _ HR).
  - by apply write_class_other.
  - apply (respects_self_register _ HR).
Qed.
End Resolve.

Lemma respects_run {S A} (R : relation S) (m : M S A) s r s' :
  respects R m → m s = (r, s') → R s s'.
Proof. intros Hm E. specialize (Hm s). by rewrite E in Hm. Qed.

(** ** Chains of classes *)

Lemma height_fun ct C d d' : height ct C d → height ct C d' → d = d'.
Proof.
  intros Hd. revert d'. induction Hd as [C k E Hs | C k P d E Hs _ IH];
    intros d' Hd'; inversion Hd'; simplify_eq; [done|].
  f_equal. by apply IH.
Qed.

Lemma ancestor_height ct C A d :
  ancestor ct C A → height ct C d → ∃ d', height ct A d' ∧ d' ≤ d.
Proof.
  intros Ha. revert d. induction Ha as [C | C k P A E Hs _ IH]; intros d Hd.
  - exists d. split; [done | lia].
  - inversion Hd; simplify_eq.
    destruct (IH _ ltac:(eassumption)) as (d' & ? & ?). exists d'. split; [done | lia].
Qed.

Lemma no_cycle ct C k P d :
  ct !! C = Some k → Cls.super k = Some P → height ct P d → ¬ ancestor ct P C.
Proof.
  intros E Hs Hd Ha.
  destruct (ancestor_height _ _ _ _ Ha Hd) as (d' & Hd' & Hle).
  pose proof (height_sub _ _ _ _ _ E Hs Hd) as Hd''.
  pose proof (height_fun _ _ _ _ Hd' Hd''). lia.
Qed.

Lemma height_shape s s' C d :
  same_shape s s' → height (classes s) C d → height (classes s') C d.
Proof.
  intros [_ Hsh] Hd. induction Hd as [C k E Hs | C k P d E Hs _ IH];
    destruct (Hsh _ _ E) as (k' & E' & Hs' & _).
  - apply (height_root _ _ k'); [exact E' | congruence].
  - apply (height_sub _ _ k' P); [exact E' | congruence | exact IH].
Qed.

Lemma read_class_run {A} C (f : klass → A) s k :
  classes s !! C = Some k → read_class C f s = (Ret (f k), s).
Proof. intros E. by rewrite /read_class E. Qed.

Section Chain.
Variable mergeOptions :
  val → val → val → list klass → list obj → outcome val * list obj.
Abbreviation resolve := (resolveConstructorOptions mergeOptions).

Lemma resolve_unfold n C s k :
  classes s !! C = Some k →
  resolve (S n) C s =
    match Cls.super k with
    | None => (Ret (Cls.options k), s)
    | Some P =>
        bind (resolve n P)
          (λ sup, let! cached := read_class C Cls.superOptions in
                  if strict_neq sup cached
                  then remerge mergeOptions C sup else ret (Cls.options k)) s
    end.
Proof.
  intros E. simpl.
  rewrite (bind_ret_run _ _ _ _ _ (read_class_run C Cls.options s k E)).
  rewrite (bind_ret_run _ _ _ _ _ (read_class_run C Cls.super s k E)).
  by destruct (Cls.super k).
Qed.

Lemma resolve_unfold_none n C s :
  classes s !! C = None → resolve (S n) C s = (Throw TypeError, s).
Proof. intros E. simpl. by rewrite /bind /read_class E. Qed.

(** Resolution assigns only to the classes of the chain. *)
Lemma resolve_frame n C s c :
  ¬ ancestor (classes s) C c → same_class c s (resolve n C s).2.
Proof.
  revert C s. induction n as [|n IH]; intros C s Hna; [simpl; reflexivity|].
  destruct (classes s !! C) as [k|] eqn:E;
    [rewrite (resolve_unfold _ _ _ _ E)
    | rewrite (resolve_unfold_none _ _ _ E); simpl; reflexivity].
  destruct (Cls.super k) as [P|] eqn:Hs; [|simpl; reflexivity].
  assert (¬ ancestor (classes s) P c) as HnP.
  { intros Ha. apply Hna. exact (ancestor_step _ _ _ _ _ E Hs Ha). }
  specialize (IH P s HnP). unfold bind at 1.
  destruct (resolve n P s) as [[sup|e] s1]; [|exact IH]. simpl in IH.
  etrans; [exact IH|].
  assert (c ≠ C) as Hne by (intros ->; apply Hna, ancestor_refl).
  clear IH. revert s1. change (respects (same_class c)
    (let! cached := read_class C Cls.superOptions in
     if strict_neq sup cached then remerge mergeOptions C sup
     else ret (Cls.options k))).
  respects_tac (on_classes_class c). by apply remerge_other.
Qed.

(** A resolution that returns has walked a finite chain. *)
Lemma resolve_height n C s v s' :
  resolve n C s = (Ret v, s') → ∃ d, height (classes s) C d.
Proof.
  revert C s v s'. induction n as [|n IH]; intros C s v s' Hr; [done|].
  destruct (classes s !! C) as [k|] eqn:E;
    [rewrite (resolve_unfold _ _ _ _ E) in Hr
    | by rewrite resolve_unfold_none in Hr].
  destruct (Cls.super k) as [P|] eqn:Hs.
  - apply bind_inv_ret in Hr as (sup & s1 & Hp & _).
    destruct (IH _ _ _ _ Hp) as [d Hd]. exists (S d).
    exact (height_sub _ _ _ _ _ E Hs Hd).
  - exists 0. exact (height_root _ _ _ E Hs).
Qed.

(** The class being resolved is not touched while its parent is. *)
Lemma resolve_parent_frame n C s k P sup s1 :
  classes s !! C = Some k → Cls.super k = Some P →
  resolve n P s = (Ret sup, s1) →
  classes s1 !! C = Some k.
Proof.
  intros E Hs Hp. destruct (resolve_height _ _ _ _ _ Hp) as [d Hd].
  pose proof (resolve_frame n P s C (no_cycle _ _ _ _ _ E Hs Hd)) as Hf.
  rewrite Hp in Hf. unfold same_class in Hf. simpl in Hf. congruence.
Qed.

(** ** Settled chains *)

Lemma settled_resolve n s C :
  settled n (classes s) C = true →
  ∃ k, classes s !! C = Some k ∧ resolve n C s = (Ret (Cls.options k), s).
Proof.
  revert C. induction n as [|n IH]; intros C; simpl settled; [done|].
  destruct (classes s !! C) as [k|] eqn:E; [|done]. intros Hst.
  exists k. split; [done|]. rewrite (resolve_unfold _ _ _ _ E).
  destruct (Cls.super k) as [P|]; [|done].
  apply andb_true_iff in Hst as [HP Hopt].
  destruct (IH _ HP) as (kp & Ep & Hr). rewrite Ep in Hopt.
  apply bool_decide_eq_true in Hopt.
  rewrite (bind_ret_run _ _ _ _ _ Hr).
  rewrite (bind_ret_run _ _ _ _ _ (read_class_run C Cls.superOptions s k E)).
  by rewrite (proj2 (strict_neq_false _ _) Hopt).
Qed.

Lemma settled_transport n ct ct' C :
  settled n ct C = true →
  (∀ c, ancestor ct C c → ct' !! c = ct !! c) →
  settled n ct' C = true.
Proof.
  revert C. induction n as [|n IH]; intros C; simpl; [done|].
  intros Hst Hag. rewrite (Hag C (ancestor_refl _ _)).
  destruct (ct !! C) as [k|] eqn:E; [|done].
  destruct (Cls.super k) as [P|] eqn:Hs; [|done].
  apply andb_true_iff in Hst as [HP Hopt]. apply andb_true_iff. split.
  - apply IH; [done|]. intros c Ha. apply Hag.
    exact (ancestor_step _ _ _ _ _ E Hs Ha).
  - rewrite Hag; [done|].
    exact (ancestor_step _ _ _ _ _ E Hs (ancestor_refl _ _)).
Qed.

(** A re-merge that returns has stored the new cache and the new options
    in the class, and nothing else in the class table. *)
Lemma remerge_classes C sup s v s' :
  remerge mergeOptions C sup s = (Ret v, s') →
  ∃ k, classes s !! C = Some k ∧
       classes s' = <[C := with_options v (with_superOptions sup k)]> (classes s).
Proof.
  unfold remerge. intros Hr.
  apply bind_inv_ret in Hr as ([] & s2 & Hw & Hr).
  unfold write_class in Hw. destruct (classes s !! C) as [k|] eqn:E; [|done].
  simplify_eq. exists k. split; [done|].
  apply bind_inv_ret in Hr as ([] & s3 & Ha & Hr).
  pose proof (respects_run _ _ _ _ _ (respects_absorb _ on_classes_same C) Ha) as H3.
  apply bind_inv_ret in Hr as (ext & s3' & He & Hr).
  assert (s3' = s3) as ->.
  { unfold read_class in He. by destruct (classes s3 !! C); simplify_eq. }
  apply bind_inv_ret in Hr as (merged & s4 & Hm & Hr).
  pose proof (respects_run _ _ _ _ _
    (respects_merge _ on_classes_same mergeOptions sup ext VUndef) Hm) as H4.
  apply bind_inv_ret in Hr as ([] & s5 & Hw & Hr).
  apply bind_inv_ret in Hr as ([] & s6 & Hs & Hr).
  pose proof (respects_run _ _ _ _ _
    (respects_self_register _ on_classes_same C merged) Hs) as H6.
  unfold same_classes in *. simpl in *.
  unfold write_class in Hw. rewrite H4 H3 in Hw.
  rewrite list_lookup_insert_eq in Hw; [|by apply (lookup_lt_Some _ _ _ E)].
  unfold ret in Hr. simplify_eq. simpl in *.
  by rewrite H6 list_insert_insert_eq.
Qed.

(** After a resolution that returns, the chain is settled and the value
    returned is the class's current [options]. *)
Lemma resolve_settles n C s v s' :
  resolve n C s = (Ret v, s') →
  settled n (classes s') C = true ∧
  ∃ k', classes s' !! C = Some k' ∧ Cls.options k' = v.
Proof.
  revert C s v s'. induction n as [|n IH]; intros C s v s' Hr; [done|].
  destruct (classes s !! C) as [k|] eqn:E;
    [|by rewrite (resolve_unfold_none _ _ _ E) in Hr].
  rewrite (resolve_unfold _ _ _ _ E) in Hr. simpl settled.
  destruct (Cls.super k) as [P|] eqn:Hs.
  2:{ simplify_eq. rewrite E Hs. eauto. }
  apply bind_inv_ret in Hr as (sup & s1 & Hp & Hr).
  destruct (IH _ _ _ _ Hp) as (HstP & kp & Ep & Hopt).
  pose proof (resolve_parent_frame _ _ _ _ _ _ _ E Hs Hp) as E1.
  rewrite (bind_ret_run _ _ _ _ _ (read_class_run C Cls.superOptions s1 k E1)) in Hr.
  destruct (strict_neq sup (Cls.superOptions k)) eqn:Hneq.
  - destruct (remerge_classes _ _ _ _ _ Hr) as (k1 & Ek1 & Hct).
    assert (k1 = k) as -> by congruence.
    destruct (resolve_height _ _ _ _ _ Hp) as [d Hd].
    pose proof (height_shape _ _ _ _ (resolve_shape mergeOptions n P s) Hd) as Hd1.
    rewrite Hp in Hd1. simpl in Hd1.
    pose proof (no_cycle _ _ _ _ _ E1 Hs Hd1) as Hnc.
    assert (P ≠ C) as HPC by (intros ->; apply Hnc, ancestor_refl).
    assert (settled n (classes s') P = true) as HstP'.
    { apply (settled_transport _ _ _ _ HstP). intros c Ha. rewrite Hct.
      apply list_lookup_insert_ne. intros ->. by apply Hnc. }
    rewrite Hct list_lookup_insert_eq; [|by apply (lookup_lt_Some _ _ _ E1)].
    simpl. rewrite Hs. rewrite <-Hct, HstP'.
    split; [|eauto].
    assert (C ≠ P) as HCP by congruence.
    rewrite Hct list_lookup_insert_ne // Ep /=.
    by apply bool_decide_eq_true.
  - unfold ret in Hr. simplify_eq. apply strict_neq_false in Hneq.
    rewrite E1 Hs HstP Ep. split; [|eauto]. simpl.
    apply bool_decide_eq_true. congruence.
Qed.

End Chain.

(** ** The heap only grows *)

#[global] Instance heap_grows_refl : Reflexive heap_grows.
Proof. intros s. unfold heap_grows. lia. Qed.
#[global] Instance heap_grows_trans : Transitive heap_grows.
Proof. intros s1 s2 s3. unfold heap_grows. lia. Qed.

Lemma on_objs_grows : on_objs heap_grows.
Proof. intros s s' E. unfold heap_grows. rewrite E. lia. Qed.

Lemma respects_write R `{!Reflexive R} (HR : on_objs R) C f :
  respects R (write_class C f).
Proof.
  intros s. unfold write_class.
  destruct (classes s !! C); simpl; [by apply HR | reflexivity].
Qed.

Lemma grows_set v k x : respects heap_grows (set v k x).
Proof.
  intros s. unfold set, heap_grows.
  destruct v; simpl; try lia.
  destruct (objs s !! l); simpl; rewrite ?length_insert; lia.
Qed.

Lemma grows_alloc o : respects heap_grows (alloc o).
Proof. intros s. unfold heap_grows. simpl. rewrite length_app. lia. Qed.

Lemma grows_Object_create p : respects heap_grows (Object_create p).
Proof.
  destruct p; try apply grows_alloc; apply respects_throw; tc_solve.
Qed.

Ltac grows_prim Hm :=
  first [ apply grows_set | apply grows_alloc | apply grows_Object_create | apply Hm ].

Section Fresh.
Variable mergeOptions :
  val → val → val → list klass → list obj → outcome val * list obj.
Hypothesis Hfresh : merge_allocates mergeOptions.
Abbreviation resolve := (resolveConstructorOptions mergeOptions).

Lemma grows_merge p c v : respects heap_grows (merge mergeOptions p c v).
Proof.
  intros s. unfold merge, heap_grows.
  destruct (mergeOptions p c v (classes s) (objs s)) as [r h] eqn:E.
  by destruct (Hfresh _ _ _ _ _ _ _ E).
Qed.

Lemma grows_absorb C : respects heap_grows (absorb_late_options C).
Proof.
  unfold absorb_late_options, resolveModifiedOptions, extend, diff_key, copy_key.
  repeat respects_step ltac:(grows_prim grows_merge).
Qed.

Lemma grows_self_register C o : respects heap_grows (self_register C o).
Proof.
  unfold self_register. repeat respects_step ltac:(grows_prim grows_merge).
Qed.

Lemma grows_remerge C sup : respects heap_grows (remerge mergeOptions C sup).
Proof.
  unfold remerge. repeat respects_step ltac:(grows_prim grows_merge).
  - apply (respects_write _ on_objs_grows).
  - apply grows_absorb.
  - apply (respects_write _ on_objs_grows).
  - apply grows_self_register.
Qed.

Lemma grows_resolve n C : respects heap_grows (resolve n C).
Proof.
  revert C. induction n as [|n IH]; intros C; simpl;
    repeat respects_step ltac:(grows_prim grows_merge);
    [apply IH | apply grows_remerge].
Qed.

(** The value a re-merge returns is an object that did not exist before. *)
Lemma remerge_fresh C sup s v s' :
  remerge mergeOptions C sup s = (Ret v, s') →
  ∃ l, v = VObj l ∧ length (objs s) ≤ l.
Proof.
  unfold remerge. intros Hr.
  apply bind_inv_ret in Hr as ([] & s2 & Hw & Hr).
  pose proof (respects_run _ _ _ _ _
    (respects_write heap_grows on_objs_grows C _) Hw) as G2.
  apply bind_inv_ret in Hr as ([] & s3 & Ha & Hr).
  pose proof (respects_run _ _ _ _ _ (grows_absorb C) Ha) as G3.
  apply bind_inv_ret in Hr as (ext & s3' & He & Hr).
  assert (s3' = s3) as ->.
  { unfold read_class in He. by destruct (classes s3 !! C); simplify_eq. }
  apply bind_inv_ret in Hr as (merged & s4 & Hm & Hr).
  apply bind_inv_ret in Hr as ([] & s5 & _ & Hr).
  apply bind_inv_ret in Hr as ([] & s6 & _ & Hr).
  unfold ret in Hr. simplify_eq.
  unfold merge in Hm.
  destruct (mergeOptions sup ext VUndef (classes s3) (objs s3)) as [r h] eqn:E.
  simplify_eq. destruct (Hfresh _ _ _ _ _ _ _ E) as [_ Hx].
  destruct (Hx _ eq_refl) as (l & -> & Hl). exists l. split; [done|].
  unfold heap_grows in *. lia.
Qed.

(** Either nothing was re-merged on the way up, and then nothing changed at
    all, or the value returned is a new object. *)
Lemma resolve_fresh_or_settled n C s v s' :
  cache_ok s →
  resolve n C s = (Ret v, s') →
  (s' = s ∧ settled n (classes s) C = true) ∨
  (∃ l, v = VObj l ∧ length (objs s) ≤ l).
Proof.
  intros Hok. revert C v s'. induction n as [|n IH]; intros C v s' Hr; [done|].
  destruct (classes s !! C) as [k|] eqn:E;
    [|by rewrite (resolve_unfold_none mergeOptions _ _ _ E) in Hr].
  rewrite (resolve_unfold mergeOptions _ _ _ _ E) in Hr. simpl settled. rewrite E.
  destruct (Cls.super k) as [P|] eqn:Hs; [|left; by simplify_eq].
  apply bind_inv_ret in Hr as (sup & s1 & Hp & Hr).
  pose proof (resolve_parent_frame mergeOptions _ _ _ _ _ _ _ E Hs Hp) as E1.
  pose proof (respects_run _ _ _ _ _ (grows_resolve n P) Hp) as G1.
  rewrite (bind_ret_run _ _ _ _ _ (read_class_run C Cls.superOptions s1 k E1)) in Hr.
  destruct (strict_neq sup (Cls.superOptions k)) eqn:Hneq.
  - right. destruct (remerge_fresh _ _ _ _ _ Hr) as (l & -> & Hl).
    exists l. split; [done|]. unfold heap_grows in G1. lia.
  - apply strict_neq_false in Hneq. unfold ret in Hr. simplify_eq.
    destruct (IH _ _ _ Hp) as [[-> HstP] | (l & Hl & Hle)].
    + left. split; [done|]. rewrite HstP. simpl.
      destruct (settled_resolve mergeOptions _ _ _ HstP) as (kp & Ep & Hrp).
      rewrite Ep. apply bool_decide_eq_true. congruence.
    + pose proof (Hok _ _ E) as Hv. rewrite Hl in Hv. simpl in Hv. lia.
Qed.

End Fresh.

(** ** Idempotence, the cache hit and the seal *)

Section Claims_resolver.
Variable mergeOptions :
  val → val → val → list klass → list obj → outcome val * list obj.
Abbreviation resolve := (resolveConstructorOptions mergeOptions).

(** C5.  Resolving a class twice in a row returns the identical
    configuration both times: the second call returns the value of the
    first and changes nothing.  A class without a parent gets its own
    [options] back, and the store is left as it was. *)
Theorem resolve_idempotent n C s v s' :
  resolveConstructorOptions mergeOptions n C s = (Ret v, s') →
  resolveConstructorOptions mergeOptions n C s' = (Ret v, s') ∧
  (∀ k, classes s !! C = Some k → Cls.super k = None →
        v = Cls.options k ∧ s' = s).
Proof.
  intros Hr. split.
  - destruct (resolve_settles mergeOptions _ _ _ _ _ Hr) as (Hst & k' & E' & <-).
    destruct (settled_resolve mergeOptions _ _ _ Hst) as (k'' & E'' & Hr').
    by simplify_eq.
  - intros k E Hs. destruct n as [|n]; [done|].
    rewrite (resolve_unfold mergeOptions _ _ _ _ E) Hs in Hr. by simplify_eq.
Qed.

(** C8, as amended.  Resolution never assigns [sealedOptions]: whatever
    it returns, and also when it re-merges and stores new options, every
    class keeps the [sealedOptions] it had before the call. *)
Theorem resolve_keeps_sealedOptions n C s c :
  Cls.sealedOptions <$>
    classes (resolveConstructorOptions mergeOptions n C s).2 !! c =
  Cls.sealedOptions <$> classes s !! c.
Proof.
  destruct (resolve_shape mergeOptions n C s) as [Hlen Hsh].
  destruct (classes s !! c) as [k|] eqn:E.
  - destruct (Hsh _ _ E) as (k' & E' & _ & _ & Hse & _). by rewrite E' /= Hse.
  - apply lookup_ge_None in E. rewrite (proj2 (lookup_ge_None _ _)); [done|lia].
Qed.

(** C10.  When the parent's fresh resolution returns the very value cached
    in [Ctor.superOptions], the call returns [Ctor.options] and assigns
    nothing: the store is the one the parent's resolution left, in which
    the class still has all its fields.  With a merge engine that returns
    new objects, that store is the store before the call. *)
Theorem resolve_cache_hit n C s k P sup s1 :
  classes s !! C = Some k → Cls.super k = Some P →
  resolveConstructorOptions mergeOptions n P s = (Ret sup, s1) →
  sup = Cls.superOptions k →
  resolveConstructorOptions mergeOptions (S n) C s =
    (Ret (Cls.options k), s1) ∧
  classes s1 !! C = Some k ∧
  (merge_allocates mergeOptions → cache_ok s → s1 = s).
Proof.
  intros E Hs Hp Hhit.
  pose proof (resolve_parent_frame mergeOptions _ _ _ _ _ _ _ E Hs Hp) as E1.
  split; [|split; [done|]].
  - rewrite (resolve_unfold mergeOptions _ _ _ _ E) Hs (bind_ret_run _ _ _ _ _ Hp).
    rewrite (bind_ret_run _ _ _ _ _ (read_class_run C Cls.superOptions s1 k E1)).
    by rewrite (proj2 (strict_neq_false _ _) Hhit).
  - intros Hfresh Hok.
    destruct (resolve_fresh_or_settled _ Hfresh _ _ _ _ _ Hok Hp)
      as [[-> _] | (l & Hl & Hle)]; [done|].
    pose proof (Hok _ _ E) as Hv. rewrite -Hhit Hl in Hv. simpl in Hv. lia.
Qed.

End Claims_resolver.

(** ** The resolver at work on [demo] *)

Lemma resolve_idempotent_demo :
  resolveConstructorOptions shallow_merge 2 1 demo = (Ret (VObj 10), demo_resolved) ∧
  resolveConstructorOptions shallow_merge 2 1 demo_resolved =
    (Ret (VObj 10), demo_resolved).
Proof.
  assert (resolveConstructorOptions shallow_merge 2 1 demo =
          (Ret (VObj 10), demo_resolved)) as Hr by (vm_compute; reflexivity).
  split; [exact Hr|].
  exact (proj1 (resolve_idempotent shallow_merge 2 1 demo (VObj 10) demo_resolved Hr)).
Defined.

Lemma resolve_cache_hit_demo :
  ∃ k, classes demo_resolved !! 1 = Some k ∧
       resolveConstructorOptions shallow_merge 2 1 demo_resolved =
         (Ret (Cls.options k), demo_resolved).
Proof.
  eexists. split; [vm_compute; reflexivity|].
  refine (proj1 (resolve_cache_hit shallow_merge 1 1 demo_resolved _ 0 (VObj 0)
                   demo_resolved _ _ _ _)); vm_compute; reflexivity.
Defined.

(** C8 as stated fails.  On [demo] the subclass is re-merged: its new
    [options] have the key [a] of the new root options, and its
    [sealedOptions] is still the snapshot of the options it replaced. *)
Lemma sealedOptions_not_resealed :
  resolveConstructorOptions shallow_merge 2 1 demo = (Ret (VObj 10), demo_resolved) ∧
  Cls.options <$> classes demo_resolved !! 1 = Some (VObj 10) ∧
  Cls.options <$> classes demo !! 1 = Some (VObj 4) ∧
  ¬ sealed_snapshot demo_resolved 1.
Proof.
  split; [vm_compute; reflexivity|].
  split; [vm_compute; reflexivity|].
  split; [vm_compute; reflexivity|].
  intros (k & E & Hf). vm_compute in E. injection E as <-.
  apply (f_equal (λ m : gmap string val, m !! "a")) in Hf.
  vm_compute in Hf. discriminate.
Qed.

Lemma bind_assoc_run {S A B C} (m : M S A) (k1 : A → M S B) (k2 : B → M S C) s :
  bind (bind m k1) k2 s = bind m (λ a, bind (k1 a) k2) s.
Proof. unfold bind. by destruct (m s) as [[a|e] s1]. Qed.

(** ** The late-modification diff, computed *)

Lemma list_insert_snoc {A} (l : list A) (x y : A) :
  <[length l := y]> (l ++ [x]) = l ++ [y].
Proof.
  rewrite insert_app_r_alt; [|lia]. by rewrite Nat.sub_diag.
Qed.

Lemma lookup_snoc {A} (l : list A) (x : A) : (l ++ [x]) !! length l = Some x.
Proof. rewrite lookup_app_r; [|lia]. by rewrite Nat.sub_diag. Qed.

Lemma set_run l k x s o :
  objs s !! l = Some o →
  set (VObj l) k x s =
    (Ret tt, set_objs (<[l := Obj (proto o) (<[k := x]> (props o))]> (objs s)) s).
Proof. intros E. by rewrite /set E. Qed.



Lemma modified_at_empty h : modified_at h ∅ = (VUndef, h).
Proof. unfold modified_at. by case_decide. Qed.

Lemma modified_at_grows h acc :
  length h ≤ length (modified_at h acc).2 ∧
  ∀ i, i < length h → (modified_at h acc).2 !! i = h !! i.
Proof.
  unfold modified_at. case_decide; simpl; [done|].
  rewrite length_app. split; [lia|]. intros i Hi. by rewrite lookup_app_l.
Qed.

Lemma diff_key_run h latest sealed ct acc key :
  heap_wf h → val_ok h latest → val_ok h sealed →
  latest ≠ VUndef → latest ≠ VNull → sealed ≠ VUndef → sealed ≠ VNull →
  diff_key latest sealed (modified_at h acc).1 key
           (Store (modified_at h acc).2 ct) =
  (Ret (modified_at h (late_step h latest sealed acc key)).1,
   Store (modified_at h (late_step h latest sealed acc key)).2 ct).
Proof.
  intros Hwf Hl Hs ????. unfold diff_key.
  destruct (modified_at_grows h acc) as [Hlen Hag].
  rewrite (bind_ret_run _ _ _ (field h latest key)
             (Store (modified_at h acc).2 ct)); last first.
  { rewrite get_run //=. by rewrite (field_agree h). }
  rewrite (bind_ret_run _ _ _ (field h sealed key)
             (Store (modified_at h acc).2 ct)); last first.
  { rewrite get_run //=. by rewrite (field_agree h). }
  unfold late_step.
  destruct (strict_neq _ _); [|done].
  assert (modified_at h (<[key:=field h latest key]> acc) =
          (VObj (length h), h ++ [Obj VNull (<[key:=field h latest key]> acc)]))
    as ->.
  { unfold modified_at. rewrite decide_False //. apply insert_non_empty. }
  unfold modified_at. case_decide as Hacc; simpl.
  - subst acc.
    rewrite (bind_ret_run _ _ _ (VObj (length h))
               (Store (h ++ [Obj VNull ∅]) ct)) //.
    rewrite (bind_ret_run _ _ _ tt
               (Store (h ++ [Obj VNull (<[key:=field h latest key]> ∅)]) ct)) //.
    rewrite (set_run _ _ _ _ (Obj VNull ∅)) /=; [|apply lookup_snoc].
    by rewrite /set_objs /= list_insert_snoc.
  - rewrite (bind_ret_run _ _ _ (VObj (length h))
               (Store (h ++ [Obj VNull acc]) ct)) //.
    rewrite (bind_ret_run _ _ _ tt
               (Store (h ++ [Obj VNull (<[key:=field h latest key]> acc)]) ct)) //.
    rewrite (set_run _ _ _ _ (Obj VNull acc)) /=; [|apply lookup_snoc].
    by rewrite /set_objs /= list_insert_snoc.
Qed.

Lemma late_loop h latest sealed ct keys acc :
  heap_wf h → val_ok h latest → val_ok h sealed →
  latest ≠ VUndef → latest ≠ VNull → sealed ≠ VUndef → sealed ≠ VNull →
  foldM (diff_key latest sealed) keys (modified_at h acc).1
        (Store (modified_at h acc).2 ct) =
  (Ret (modified_at h (foldl (late_step h latest sealed) acc keys)).1,
   Store (modified_at h (foldl (late_step h latest sealed) acc keys)).2 ct).
Proof.
  intros Hwf Hl Hs ????. revert acc.
  induction keys as [|key keys IH]; intros acc; [done|].
  simpl. rewrite (bind_ret_run _ _ _ _ _
    (diff_key_run h latest sealed ct acc key _ _ _ _ _ _ _)) //.
Qed.

Lemma lookup_late_fold h latest sealed keys acc key :
  foldl (late_step h latest sealed) acc keys !! key =
  if decide (key ∈ keys ∧ field h latest key ≠ field h sealed key)
  then Some (field h latest key) else acc !! key.
Proof.
  revert acc. induction keys as [|k0 keys IH]; intros acc; cbn [foldl].
  { case_decide as Hd; [|done]. destruct Hd as [Hin _]. by apply elem_of_nil in Hin. }
  rewrite IH. unfold late_step.
  case_decide as Hd; case_decide as Hd'; try done.
  - destruct Hd'. destruct Hd. split; [by apply elem_of_cons; right | done].
  - destruct Hd' as [Hin Hne]. apply elem_of_cons in Hin as [->|Hin]; [|naive_solver].
    rewrite (proj2 (strict_neq_true _ _) Hne). by rewrite lookup_insert_eq.
  - destruct (strict_neq _ _) eqn:Hneq; [|done].
    apply strict_neq_true in Hneq. rewrite lookup_insert_ne //.
    intros ->. apply Hd'. split; [apply elem_of_cons; by left | done].
Qed.

Lemma late_fold_eq h latest sealed :
  foldl (late_step h latest sealed) ∅ (elements (dom (flat h latest))) =
  late_options h latest sealed.
Proof.
  apply map_eq. intros key. rewrite lookup_late_fold lookup_empty.
  apply option_eq. intros x. unfold late_options.
  rewrite map_lookup_filter_Some. cbn [fst snd].
  case_decide as Hd; split.
  - destruct Hd as [Hin Hne]. apply elem_of_elements, elem_of_dom in Hin as [y Hy].
    assert (field h latest key = y) as Hf by (by rewrite /field Hy).
    rewrite Hf in Hne |- *. intros [= <-]. done.
  - intros [Hx Hne]. by rewrite /field Hx.
  - done.
  - intros [Hx Hne]. destruct Hd. split.
    + apply elem_of_elements, elem_of_dom. eauto.
    + by rewrite {1}/field Hx.
Qed.

(** [resolveModifiedOptions] returns [undefined] when nothing was modified
    late, and else a fresh object that holds the late options. *)
Lemma resolveModifiedOptions_run C s k :
  classes s !! C = Some k →
  heap_wf (objs s) →
  val_ok (objs s) (Cls.options k) → val_ok (objs s) (Cls.sealedOptions k) →
  Cls.sealedOptions k ≠ VUndef → Cls.sealedOptions k ≠ VNull →
  resolveModifiedOptions C s =
    (Ret (modified_at (objs s)
            (late_options (objs s) (Cls.options k) (Cls.sealedOptions k))).1,
     set_objs (modified_at (objs s)
            (late_options (objs s) (Cls.options k) (Cls.sealedOptions k))).2 s).
Proof.
  intros E Hwf Hl Hs ??. unfold resolveModifiedOptions.
  rewrite (bind_ret_run _ _ _ _ _ (read_class_run C Cls.options s k E)).
  rewrite (bind_ret_run _ _ _ _ _ (read_class_run C Cls.sealedOptions s k E)).
  rewrite (bind_ret_run _ _ _ _ _ (for_in_keys_run _ s)).
  rewrite -late_fold_eq.
  destruct (decide (Cls.options k = VUndef ∨ Cls.options k = VNull)) as [Hn|Hn].
  { assert (flat (objs s) (Cls.options k) = ∅) as ->
      by (destruct Hn as [-> | ->]; done).
    rewrite dom_empty_L elements_empty /=. by destruct s. }
  pose proof (late_loop (objs s) (Cls.options k) (Cls.sealedOptions k)
                (classes s) (elements (dom (flat (objs s) (Cls.options k)))) ∅) as Hl'.
  rewrite modified_at_empty /= in Hl'.
  destruct s as [h ct]. simpl in *. rewrite Hl' //; naive_solver.
Qed.

(** ** [extend], computed *)


Lemma field_own_Some h l k o v :
  h !! l = Some o → props o !! k = Some v → field h (VObj l) k = v.
Proof.
  intros E Hk. unfold field, flat.
  destruct (length h) as [|n] eqn:Hn.
  { apply lookup_lt_Some in E. lia. }
  simpl. rewrite E /=. by rewrite (lookup_union_Some_l _ _ _ _ Hk).
Qed.





(** ** Absorbing the late options *)


(** ** The re-merge, step by step *)

Section Remerge.
Variable mergeOptions :
  val → val → val → list klass → list obj → outcome val * list obj.
Abbreviation resolve := (resolveConstructorOptions mergeOptions).

Lemma resolve_remerge_eq n C s k P sup s1 :
  classes s !! C = Some k → Cls.super k = Some P →
  resolve n P s = (Ret sup, s1) →
  sup ≠ Cls.superOptions k →
  resolve (S n) C s = remerge mergeOptions C sup s1.
Proof.
  intros E Hs Hp Hne.
  pose proof (resolve_parent_frame mergeOptions _ _ _ _ _ _ _ E Hs Hp) as E1.
  rewrite (resolve_unfold mergeOptions _ _ _ _ E) Hs (bind_ret_run _ _ _ _ _ Hp).
  rewrite (bind_ret_run _ _ _ _ _ (read_class_run C Cls.superOptions s1 k E1)).
  by rewrite (proj2 (strict_neq_true _ _) Hne).
Qed.

Lemma remerge_unfold C sup s1 k s3 merged h4 :
  classes s1 !! C = Some k →
  absorb_late_options C
    (set_classes (<[C := with_superOptions sup k]> (classes s1)) s1) = (Ret tt, s3) →
  mergeOptions sup (Cls.extendOptions k) VUndef (classes s3) (objs s3) =
    (Ret merged, h4) →
  remerge mergeOptions C sup s1 =
    (self_register C merged;; ret merged)
      (Store h4 (<[C := with_options merged (with_superOptions sup k)]> (classes s1))).
Proof.
  intros E Ha Hm. unfold remerge.
  assert (C < length (classes s1)) as Hlt by (by apply (lookup_lt_Some _ _ _ E)).
  rewrite (bind_ret_run _ _ _ tt
    (set_classes (<[C := with_superOptions sup k]> (classes s1)) s1)); last first.
  { by rewrite /write_class E. }
  rewrite (bind_ret_run _ _ _ _ _ Ha).
  pose proof (respects_run _ _ _ _ _ (respects_absorb _ on_classes_same C) Ha) as H3.
  unfold same_classes in H3. simpl in H3.
  assert (classes s3 !! C = Some (with_superOptions sup k)) as E3.
  { by rewrite H3 list_lookup_insert_eq. }
  rewrite (bind_ret_run _ _ _ _ _ (read_class_run C Cls.extendOptions s3 _ E3)).
  rewrite (bind_ret_run _ _ _ merged (set_objs h4 s3)); last first.
  { by rewrite /merge /= Hm. }
  rewrite (bind_ret_run _ _ _ tt
    (Store h4 (<[C := with_options merged (with_superOptions sup k)]> (classes s1))));
    last first.
  { rewrite /write_class /= E3 /set_classes /= H3. by rewrite list_insert_insert_eq. }
  done.
Qed.


(** C7.  When the options are recomputed and the merged result has a
    [name], the class is stored under that name in the merged result's
    [components]: looking the name up there gives the class itself. *)
Theorem named_class_registers_itself n C s k P sup s1 s3 merged h4 name cl co :
  classes s !! C = Some k → Cls.super k = Some P →
  resolveConstructorOptions mergeOptions n P s = (Ret sup, s1) →
  sup ≠ Cls.superOptions k →
  absorb_late_options C
    (set_classes (<[C := with_superOptions sup k]> (classes s1)) s1) = (Ret tt, s3) →
  mergeOptions sup (Cls.extendOptions k) VUndef (classes s3) (objs s3) =
    (Ret merged, h4) →
  field h4 merged "name" = name → truthy name = true →
  field h4 merged "components" = VObj cl → h4 !! cl = Some co →
  ∃ s', resolveConstructorOptions mergeOptions (S n) C s = (Ret merged, s') ∧
        Cls.options <$> classes s' !! C = Some merged ∧
        objs s' =
          <[cl := Obj (proto co) (<[to_key name := VClass C]> (props co))]> h4 ∧
        get (VObj cl) (to_key name) s' = (Ret (VClass C), s').
Proof.
  intros E Hs Hp Hne Ha Hm Hname Htr Hcomp Ecl.
  pose proof (resolve_parent_frame mergeOptions _ _ _ _ _ _ _ E Hs Hp) as E1.
  assert (C < length (classes s1)) as Hlt by (by apply (lookup_lt_Some _ _ _ E1)).
  assert (cl < length h4) as Hcl by (by apply (lookup_lt_Some _ _ _ Ecl)).
  assert (merged ≠ VUndef ∧ merged ≠ VNull) as [??].
  { split; intros ->; by rewrite -Hname in Htr. }
  eexists. split; [|split; [|split]].
  - rewrite (resolve_remerge_eq _ _ _ _ _ _ _ E Hs Hp Hne).
    rewrite (remerge_unfold _ _ _ _ _ _ _ E1 Ha Hm). unfold self_register.
    rewrite bind_assoc_run.
    erewrite bind_ret_run; [|by apply get_run].
    cbn [objs]. rewrite Hname Htr.
    rewrite bind_assoc_run.
    erewrite bind_ret_run; [|by apply get_run].
    cbn [objs]. rewrite Hcomp.
    erewrite bind_ret_run; [|by apply (set_run cl _ _ (Store h4 _) co)].
    reflexivity.
  - simpl. by rewrite list_lookup_insert_eq.
  - done.
  - rewrite get_run //=. do 2 f_equal.
    apply (field_own_Some _ _ _ (Obj (proto co) (<[to_key name:=VClass C]> (props co)))).
    + by rewrite list_lookup_insert_eq.
    + by rewrite lookup_insert_eq.
Qed.

End Remerge.

(** ** The re-merge at work on [demo] *)

Lemma demo_wf : heap_wf demo_objs.
Proof.
  intros l o p Hl Hp.
  do 9 (destruct l as [|l]; [simplify_eq/=; lia|]). done.
Qed.




Lemma named_class_registers_itself_demo :
  ∃ s', resolveConstructorOptions shallow_merge 2 1 demo = (Ret (VObj 10), s') ∧
        get (VObj 1) "child" s' = (Ret (VClass 1), s').
Proof.
  pose (k := Cls.Make (VObj 4) (Some 0) (VObj 2) (VObj 3) (VObj 5) (VObj 7)).
  pose (s3 := (absorb_late_options 1
                 (set_classes (<[1 := with_superOptions (VObj 0) k]> (classes demo))
                    demo)).2).
  pose (h4 := (shallow_merge (VObj 0) (VObj 3) VUndef (classes s3) (objs s3)).2).
  assert (classes demo !! 1 = Some k) as H1 by reflexivity.
  assert (Cls.super k = Some 0) as H2 by reflexivity.
  assert (resolveConstructorOptions shallow_merge 1 0 demo = (Ret (VObj 0), demo))
    as H3 by reflexivity.
  assert (VObj 0 ≠ Cls.superOptions k) as H4 by discriminate.
  assert (absorb_late_options 1
            (set_classes (<[1 := with_superOptions (VObj 0) k]> (classes demo)) demo)
          = (Ret tt, s3)) as H5 by (vm_compute; reflexivity).
  assert (shallow_merge (VObj 0) (Cls.extendOptions k) VUndef (classes s3) (objs s3)
          = (Ret (VObj 10), h4)) as H6 by (vm_compute; reflexivity).
  assert (field h4 (VObj 10) "name" = VStr "child") as H7 by (vm_compute; reflexivity).
  assert (field h4 (VObj 10) "components" = VObj 1) as H8 by (vm_compute; reflexivity).
  assert (h4 !! 1 = Some (Obj VNull ∅)) as H9 by (vm_compute; reflexivity).
  destruct (named_class_registers_itself shallow_merge 1 1 demo k 0 (VObj 0) demo s3
              (VObj 10) h4 (VStr "child") 1 (Obj VNull ∅)
              H1 H2 H3 H4 H5 H6 H7 eq_refl H8 H9) as (s' & Hr & _ & _ & Hget).
  exists s'. split; [exact Hr | exact Hget].
Defined.

(** ** The fast path *)

(** Reading [key] through the prototype chain only depends on the
    prototypes and on the values at [key] of the objects below [b]. *)
Lemma flat_chain_frame h h' b key n n' l :
  heap_wf h →
  (∀ i o, i < b → h !! i = Some o →
     ∃ o', h' !! i = Some o' ∧ proto o' = proto o ∧
           props o' !! key = props o !! key) →
  l < b → b ≤ length h → l < n → l < n' →
  flat_chain n' h' l !! key = flat_chain n h l !! key.
Proof.
  intros Hwf Hag. revert n' l.
  induction n as [|n IH]; intros n' l Hb Hlen Hn Hn'; [lia|].
  destruct n' as [|n']; [lia|]. simpl.
  destruct (h !! l) as [o|] eqn:Eo.
  2:{ apply lookup_ge_None in Eo. lia. }
  destruct (Hag _ _ Hb Eo) as (o' & -> & Hp & Hk).
  rewrite !lookup_union Hk Hp. f_equal.
  destruct (proto o) eqn:Ep; try done.
  pose proof (Hwf _ _ _ Eo Ep). apply IH; lia.
Qed.

Lemma field_frame h h' key x :
  heap_wf h → val_ok h x → length h ≤ length h' →
  (∀ i o, i < length h → h !! i = Some o →
     ∃ o', h' !! i = Some o' ∧ proto o' = proto o ∧
           props o' !! key = props o !! key) →
  field h' x key = field h x key.
Proof.
  intros Hwf Hx Hlen Hag. unfold field. f_equal.
  destruct x; try done. simpl in *.
  eapply flat_chain_frame; eauto; lia.
Qed.

Section Internal.
Variables (h0 : list obj) (ct : list klass) (v : loc) (vo : obj) (copts : val).
Hypothesis Hwf : heap_wf h0.
Hypothesis Ev : h0 !! v = Some vo.

Lemma internal_heap_eq po :
  internal_heap h0 v copts po =
  <[v := Obj (proto vo) (<["$options" := VObj (length h0)]> (props vo))]> h0
  ++ [Obj copts po].
Proof. by rewrite /internal_heap Ev. Qed.

Lemma internal_get po x key :
  val_ok h0 x → x ≠ VUndef → x ≠ VNull → key ≠ "$options" →
  get x key (Store (internal_heap h0 v copts po) ct) =
  (Ret (field h0 x key), Store (internal_heap h0 v copts po) ct).
Proof.
  intros Hx ?? Hk. rewrite get_run //=. do 2 f_equal.
  apply field_frame; [done..| |].
  - rewrite internal_heap_eq length_app length_insert. lia.
  - intros i o Hi Eo. rewrite internal_heap_eq.
    rewrite lookup_app_l; [|by rewrite length_insert].
    destruct (decide (i = v)) as [->|Hne].
    + rewrite list_lookup_insert_eq //. eexists. split; [done|].
      simplify_eq. simpl. split; [done|]. by rewrite lookup_insert_ne.
    + rewrite list_lookup_insert_ne //. eauto.
Qed.

Lemma internal_set po key x :
  set (VObj (length h0)) key x (Store (internal_heap h0 v copts po) ct) =
  (Ret tt, Store (internal_heap h0 v copts (<[key := x]> po)) ct).
Proof.
  rewrite !internal_heap_eq.
  pose proof (length_insert h0 v
    (Obj (proto vo) (<["$options" := VObj (length h0)]> (props vo)))) as Hlen.
  set (hv := <[v:=_]> h0) in *. clearbody hv. rewrite -Hlen.
  rewrite (set_run _ _ _ _ (Obj copts po)) /=; [|apply lookup_snoc].
  by rewrite /set_objs /= list_insert_snoc.
Qed.

Lemma internal_heap_wf po :
  (copts = VNull ∨ ∃ p, copts = VObj p ∧ p < length h0) →
  heap_wf (internal_heap h0 v copts po).
Proof.
  intros Hc l o p. rewrite internal_heap_eq. intros El Ep.
  assert (v < length h0) as Hv by (by apply (lookup_lt_Some _ _ _ Ev)).
  destruct (decide (l < length h0)) as [Hl|Hl].
  - rewrite lookup_app_l in El; [|by rewrite length_insert].
    destruct (decide (l = v)) as [->|Hne].
    + rewrite list_lookup_insert_eq // in El. simplify_eq. simpl in Ep.
      by apply (Hwf _ _ _ Ev).
    + rewrite list_lookup_insert_ne // in El. by apply (Hwf _ _ _ El).
  - apply lookup_lt_Some in El as Hlt.
    rewrite length_app length_insert /= in Hlt.
    assert (l = length h0) as -> by lia.
    pose proof (length_insert h0 v
      (Obj (proto vo) (<["$options" := VObj (length h0)]> (props vo)))) as Hlen.
    set (hv := <[v:=_]> h0) in *. clearbody hv. rewrite -Hlen in El.
    rewrite lookup_snoc in El. simplify_eq. simpl in Ep.
    destruct Hc as [->|(p' & -> & ?)]; [done|]. simplify_eq. lia.
Qed.

Lemma internal_heap_new po :
  internal_heap h0 v copts po !! length h0 = Some (Obj copts po).
Proof.
  rewrite internal_heap_eq.
  pose proof (length_insert h0 v
    (Obj (proto vo) (<["$options" := VObj (length h0)]> (props vo)))) as Hlen.
  set (hv := <[v:=_]> h0) in *. clearbody hv. rewrite -Hlen. apply lookup_snoc.
Qed.

Lemma internal_heap_vm po :
  internal_heap h0 v copts po !! v =
  Some (Obj (proto vo) (<["$options" := VObj (length h0)]> (props vo))).
Proof.
  assert (v < length h0) as Hv by (by apply (lookup_lt_Some _ _ _ Ev)).
  rewrite internal_heap_eq lookup_app_l; [|by rewrite length_insert].
  by rewrite list_lookup_insert_eq.
Qed.

Lemma internal_own po key x :
  po !! key = Some x →
  field (internal_heap h0 v copts po) (VObj (length h0)) key = x.
Proof. intros Hk. by apply (field_own_Some _ _ _ _ _ (internal_heap_new po)). Qed.

(** A key that was not assigned is read from the prototype. *)
Lemma internal_fallthrough po key :
  (copts = VNull ∨ ∃ p, copts = VObj p ∧ p < length h0) →
  po !! key = None →
  field (internal_heap h0 v copts po) (VObj (length h0)) key =
  field (internal_heap h0 v copts po) copts key.
Proof.
  intros Hc Hk. pose proof (internal_heap_wf po Hc) as Hwf'.
  pose proof (internal_heap_new po) as Enew.
  assert (length (internal_heap h0 v copts po) = S (length h0)) as Hlen.
  { rewrite internal_heap_eq length_app length_insert /=. lia. }
  unfold field. f_equal. destruct Hc as [->|(p & -> & Hp)].
  - unfold flat. rewrite Hlen /= Enew /=.
    by rewrite lookup_union Hk lookup_empty.
  - unfold flat. rewrite Hlen.
    rewrite (flat_chain_agree _ _ (S (length h0)) (length h0) (S (length h0)) p Hwf');
      [|done|lia..].
    simpl. rewrite Enew /=. by rewrite lookup_union Hk (left_id_L None (∪)).
Qed.

End Internal.

(** C4.  On the fast path the new [$options] is an object whose prototype
    is the constructor's current [options]; [parent] and [_parentVnode]
    are those of the options supplied, [propsData], [_parentListeners],
    [_renderChildren] and [_componentTag] are read off the
    [componentOptions] of the virtual node, [render] and [staticRenderFns]
    are copied when a render function is supplied, and every other key is
    read from the prototype. *)
Theorem internal_component_options s v vo options Ctor copts :
  heap_wf (objs s) →
  objs s !! v = Some vo →
  field (objs s) (VObj v) "constructor" = VClass Ctor →
  Cls.options <$> classes s !! Ctor = Some copts →
  (copts = VNull ∨ ∃ p, copts = VObj p ∧ p < length (objs s)) →
  let pv := field (objs s) options "_parentVnode" in
  let vco := field (objs s) pv "componentOptions" in
  val_ok (objs s) options → val_ok (objs s) pv → val_ok (objs s) vco →
  options ≠ VUndef → options ≠ VNull →
  pv ≠ VUndef → pv ≠ VNull → vco ≠ VUndef → vco ≠ VNull →
  ∃ s', initInternalComponent (VObj v) options s = (Ret tt, s') ∧
    let o := VObj (length (objs s)) in
    classes s' = classes s ∧
    field (objs s') (VObj v) "$options" = o ∧
    proto <$> objs s' !! length (objs s) = Some copts ∧
    field (objs s') o "parent" = field (objs s) options "parent" ∧
    field (objs s') o "_parentVnode" = pv ∧
    field (objs s') o "propsData" = field (objs s) vco "propsData" ∧
    field (objs s') o "_parentListeners" = field (objs s) vco "listeners" ∧
    field (objs s') o "_renderChildren" = field (objs s) vco "children" ∧
    field (objs s') o "_componentTag" = field (objs s) vco "tag" ∧
    (truthy (field (objs s) options "render") = true →
       field (objs s') o "render" = field (objs s) options "render" ∧
       field (objs s') o "staticRenderFns" =
         field (objs s) options "staticRenderFns") ∧
    (∀ key, key ∉ internal_keys (field (objs s) options "render") →
       field (objs s') o key = field (objs s') copts key).
Proof.
  destruct s as [h0 ct].
  intros Hwf Ev Hctor Hopts Hc pv vco Ho Hpv Hvco ??????.
  cbn [objs classes] in *.
  destruct (ct !! Ctor) as [kc|] eqn:Ec; [|done].
  simpl in Hopts. injection Hopts as Hopts.
  assert (v < length h0) as Hv by (by apply (lookup_lt_Some _ _ _ Ev)).
  set (po6 := <["_componentTag" := field h0 vco "tag"]>
              (<["_renderChildren" := field h0 vco "children"]>
              (<["_parentListeners" := field h0 vco "listeners"]>
              (<["propsData" := field h0 vco "propsData"]>
              (<["_parentVnode" := pv]>
              (<["parent" := field h0 options "parent"]> (∅ : gmap string val))))))).
  set (po := if truthy (field h0 options "render")
             then <["staticRenderFns" := field h0 options "staticRenderFns"]>
                  (<["render" := field h0 options "render"]> po6)
             else po6).
  exists (Store (internal_heap h0 v copts po) ct).
  split.
  { unfold initInternalComponent.
    erewrite bind_ret_run; [|by apply get_run]. cbn [objs]. rewrite Hctor.
    erewrite bind_ret_run; [|reflexivity].
    erewrite bind_ret_run; [|by apply (read_class_run Ctor Cls.options _ kc)].
    rewrite Hopts.
    erewrite (bind_ret_run _ _ _ (VObj (length h0)) (Store (h0 ++ [Obj copts ∅]) ct));
      [|by destruct Hc as [->|(p & -> & _)]].
    erewrite (bind_ret_run _ _ _ tt (Store (internal_heap h0 v copts ∅) ct)); last first.
    { rewrite (set_run v _ _ (Store (h0 ++ [Obj copts ∅]) ct) vo) /=;
        [|by rewrite lookup_app_l].
      by rewrite /set_objs /= insert_app_l // (internal_heap_eq _ _ vo). }
    erewrite bind_ret_run; [|by apply (internal_get _ _ _ vo)]. fold pv.
    erewrite bind_ret_run; [|by apply (internal_get _ _ _ vo)].
    erewrite bind_ret_run; [|by apply (internal_set _ _ _ vo)].
    erewrite bind_ret_run; [|by apply (internal_set _ _ _ vo)].
    erewrite bind_ret_run; [|by apply (internal_get _ _ _ vo)]. fold vco.
    erewrite bind_ret_run; [|by apply (internal_get _ _ _ vo)].
    erewrite bind_ret_run; [|by apply (internal_set _ _ _ vo)].
    erewrite bind_ret_run; [|by apply (internal_get _ _ _ vo)].
    erewrite bind_ret_run; [|by apply (internal_set _ _ _ vo)].
    erewrite bind_ret_run; [|by apply (internal_get _ _ _ vo)].
    erewrite bind_ret_run; [|by apply (internal_set _ _ _ vo)].
    erewrite bind_ret_run; [|by apply (internal_get _ _ _ vo)].
    erewrite bind_ret_run; [|by apply (internal_set _ _ _ vo)].
    erewrite bind_ret_run; [|by apply (internal_get _ _ _ vo)].
    fold po6. unfold po.
    destruct (truthy (field h0 options "render")); [|done].
    erewrite bind_ret_run; [|by apply (internal_set _ _ _ vo)].
    erewrite bind_ret_run; [|by apply (internal_get _ _ _ vo)].
    by rewrite (internal_set _ _ _ vo). }
  cbn [objs classes]. split; [done|].
  split.
  { apply (field_own_Some _ _ _ _ _ (internal_heap_vm h0 v vo copts Ev po)).
    by rewrite lookup_insert_eq. }
  split; [by rewrite (internal_heap_new h0 v vo copts Ev)|].
  assert (∀ key x, po6 !! key = Some x → key ≠ "render" → key ≠ "staticRenderFns" →
            field (internal_heap h0 v copts po) (VObj (length h0)) key = x) as Hown.
  { intros key x Hk ??. apply (internal_own h0 v vo copts Ev). unfold po.
    destruct (truthy _); [|done].
    by do 2 (rewrite lookup_insert_ne; [|congruence]). }
  repeat (split; [by apply Hown|]).
  split.
  - intros Htr. unfold po. rewrite Htr.
    split; apply (internal_own h0 v vo copts Ev); by simplify_map_eq.
  - intros key Hkey. apply (internal_fallthrough h0 v vo copts Hwf Ev po key Hc).
    unfold internal_keys in Hkey. apply not_elem_of_app in Hkey as [Hk1 Hk2].
    repeat (apply not_elem_of_cons in Hk1 as [? Hk1]).
    unfold po. destruct (truthy _).
    + repeat (apply not_elem_of_cons in Hk2 as [? Hk2]). unfold po6.
      repeat (rewrite lookup_insert_ne; [|congruence]). apply lookup_empty.
    + unfold po6.
      repeat (rewrite lookup_insert_ne; [|congruence]). apply lookup_empty.
Qed.

Lemma demo_fast_wf : heap_wf demo_fast_objs.
Proof.
  intros l o p Hl Hp.
  do 14 (destruct l as [|l]; [simplify_eq/=; lia|]). done.
Qed.

Lemma internal_component_options_demo :
  initInternalComponent (VObj 13) (VObj 12) demo_fast = (Ret tt, demo_child) ∧
  field (objs demo_child) (VObj 13) "$options" = VObj 14 ∧
  proto <$> objs demo_child !! 14 = Some (VObj 4) ∧
  field (objs demo_child) (VObj 14) "_componentTag" =
    field (objs demo_fast) (VObj 10) "tag" ∧
  field (objs demo_child) (VObj 14) "late" =
    field (objs demo_child) (VObj 4) "late".
Proof.
  assert (heap_wf (objs demo_fast)) as H1 by exact demo_fast_wf.
  assert (objs demo_fast !! 13 = Some (Obj (VObj 7) ∅)) as H2 by reflexivity.
  assert (field (objs demo_fast) (VObj 13) "constructor" = VClass 1) as H3
    by (vm_compute; reflexivity).
  assert (Cls.options <$> classes demo_fast !! 1 = Some (VObj 4)) as H4 by reflexivity.
  assert (VObj 4 = VNull ∨ ∃ p, VObj 4 = VObj p ∧ p < length (objs demo_fast)) as H5
    by (right; exists 4; split; [reflexivity | cbn; lia]).
  assert (field (objs demo_fast) (VObj 12) "_parentVnode" = VObj 11) as Hpv
    by (vm_compute; reflexivity).
  assert (field (objs demo_fast) (VObj 11) "componentOptions" = VObj 10) as Hvco
    by (vm_compute; reflexivity).
  assert (field (objs demo_fast) (VObj 12) "render" = VUndef) as Hrender
    by (vm_compute; reflexivity).
  destruct (internal_component_options demo_fast 13 (Obj (VObj 7) ∅) (VObj 12) 1
              (VObj 4) H1 H2 H3 H4 H5)
    as (s' & Hr & _ & Ho & Hp & _ & _ & _ & _ & _ & Htag & _ & Hfall).
  all: rewrite ?Hpv ?Hvco; try discriminate; try (cbn; lia).
  assert (s' = demo_child) as -> by (by rewrite /demo_child Hr).
  split; [exact Hr|]. split; [exact Ho|]. split; [exact Hp|].
  rewrite Hpv Hvco in Htag. split; [exact Htag|].
  apply Hfall. rewrite Hrender. unfold internal_keys. cbn [truthy app].
  intros Hin.
  repeat (apply elem_of_cons in Hin as [Hin|Hin]; [discriminate|]).
  by apply elem_of_nil in Hin.
Defined.

(** ** The counter and the log *)

Lemma zseq_app a n m : zseq a n ++ zseq (a + Z.of_nat n) m = zseq a (n + m).
Proof.
  unfold zseq. rewrite seq_app fmap_app. f_equal. simpl.
  replace (seq n m) with (Nat.add n <$> seq 0 m)
    by (by rewrite fmap_add_seq Nat.add_0_r).
  rewrite -list_fmap_compose.
  apply list_fmap_ext. intros _ i _. simpl. lia.
Qed.

Lemma zsat_app a n m :
  zsat a n ++ zsat ((a + Z.of_nat n) `min` uid_limit) m = zsat a (n + m).
Proof.
  unfold zsat. rewrite seq_app fmap_app. f_equal. simpl.
  replace (seq n m) with (Nat.add n <$> seq 0 m)
    by (by rewrite fmap_add_seq Nat.add_0_r).
  rewrite -list_fmap_compose.
  apply list_fmap_ext. intros _ i _. simpl. lia.
Qed.

(** Below the limit the increments are exact. *)
Lemma zsat_zseq a n : (a + Z.of_nat n ≤ uid_limit + 1)%Z → zsat a n = zseq a n.
Proof.
  intros Hn. unfold zsat, zseq. apply list_fmap_ext. intros i x Hx.
  apply lookup_seq in Hx as [-> Hi]. lia.
Qed.

Lemma next_uid_le u : (u ≤ next_uid u)%Z.
Proof. unfold next_uid. case_decide; lia. Qed.

Lemma next_uid_min u : (u ≤ uid_limit)%Z → next_uid u = ((u + 1) `min` uid_limit)%Z.
Proof. intros Hu. unfold next_uid. case_decide; lia. Qed.

Lemma uids_app l1 l2 : uids (l1 ++ l2) = uids l1 ++ uids l2.
Proof. apply omap_app. Qed.



(** A step that logs [l], none of it a uid, and keeps the counter. *)
Lemma evolves_logs b y y' l :
  uid y' = uid y → log y' = log y ++ l → uids l = [] →
  (∀ id vm st, Ev id vm st ∈ l → (b ≤ id)%Z) →
  evolves b y y'.
Proof.
  intros Hu Hl Hn Hids _. split; [lia|]. exists l. split; [done|].
  split; [done|]. intros Hlim. rewrite Hn /=. split; [lia|]. split; [done|]. lia.
Qed.

Lemma evolves_silent b y y' : uid y' = uid y → log y' = log y → evolves b y y'.
Proof.
  intros Hu Hl. apply (evolves_logs b y y' []); [done|by rewrite app_nil_r|done|].
  intros ??? Hin. by apply elem_of_nil in Hin.
Qed.

#[global] Instance evolves_refl b : Reflexive (evolves b).
Proof. intros y. by apply evolves_silent. Qed.

#[global] Instance evolves_trans b : Transitive (evolves b).
Proof.
  intros y1 y2 y3 H12 H23 Hb.
  destruct (H12 Hb) as (Hle1 & l1 & Hl1 & Hb1 & Hc1).
  destruct (H23 ltac:(lia)) as (Hle2 & l2 & Hl2 & Hb2 & Hc2).
  split; [lia|]. exists (l1 ++ l2). split; [by rewrite Hl2 Hl1 assoc_L|]. split.
  - intros id vm st Hin. apply elem_of_app in Hin as [Hin|Hin]; eauto.
  - intros Hlim. destruct (Hc1 Hlim) as (Hlim2 & Hu1 & He1).
    destruct (Hc2 Hlim2) as (Hlim3 & Hu2 & He2).
    split; [done|]. rewrite uids_app length_app. split.
    + rewrite -zsat_app -He1. by f_equal.
    + rewrite He2 He1. lia.
Qed.

Lemma evolves_weaken b b' y y' :
  (b ≤ b')%Z → (b' ≤ uid y)%Z → evolves b' y y' → evolves b y y'.
Proof.
  intros Hbb Hb' Hev _. destruct (Hev Hb') as (Hle & l & Hl & Hids & Hc).
  split; [done|]. exists l. split; [done|]. split; [|done].
  intros id vm st Hin. pose proof (Hids _ _ _ Hin). lia.
Qed.

Lemma evolves_lift {A} b (m : H A) : respects (evolves b) (lift m).
Proof.
  intros y. unfold lift. destruct (m (sstore y)) as [r s]. by apply evolves_silent.
Qed.

Lemma evolves_emit b id vm st :
  (b ≤ id)%Z → st ≠ SUid → respects (evolves b) (emit (Ev id vm st)).
Proof.
  intros Hb Hst y. apply (evolves_logs b _ _ [Ev id vm st]); [done|done|by destruct st|].
  intros ??? Hin. apply list_elem_of_singleton in Hin. by simplify_eq.
Qed.

Lemma evolves_warn b msg : respects (evolves b) (emit (EWarn msg)).
Proof.
  intros y. apply (evolves_logs b _ _ [EWarn msg]); [done|done|done|].
  intros ??? Hin. apply list_elem_of_singleton in Hin. by simplify_eq.
Qed.

Lemma evolves_note b id vm st :
  (b ≤ id)%Z → st ≠ Some SUid → respects (evolves b) (note id vm st).
Proof.
  intros Hb Hst. destruct st as [st|]; simpl.
  - apply evolves_emit; [done|congruence].
  - apply respects_ret. tc_solve.
Qed.

Lemma evolves_fresh_uid vm y : evolves (uid y) y (fresh_uid vm y).2.
Proof.
  intros _. cbn [fresh_uid snd uid log]. split; [apply next_uid_le|].
  exists [Ev (uid y) vm SUid]. split; [done|]. split.
  - intros ??? Hin. apply list_elem_of_singleton in Hin. simplify_eq. lia.
  - intros Hlim. rewrite next_uid_min //.
    change (uids [Ev (uid y) vm SUid]) with [uid y]. cbn [length].
    split; [lia|]. split; [|lia]. unfold zsat. cbn [seq fmap list_fmap].
    f_equal. lia.
Qed.

Section Evolves.
Variable mergeOptions :
  val → val → val → list klass → list obj → outcome val * list obj.
Variable production : bool.
Variable extern : val → val → list val → script.

Section Exec_evolves.
Variable init : val → val → M sys unit.
Hypothesis Hinit : ∀ vm o y, evolves (uid y) y (init vm o y).2.

Lemma evolves_init b vm o : respects (evolves b) (init vm o).
Proof.
  intros y Hb. by apply (evolves_weaken b (uid y) y _ Hb ltac:(lia) (Hinit vm o y)).
Qed.

Lemma evolves_exec b sc : respects (evolves b) (exec init sc).
Proof.
  induction sc as [v|e|f k IH|vm o k IH]; intros y; simpl.
  - reflexivity.
  - reflexivity.
  - etrans; [|apply IH]. by apply evolves_silent.
  - pose proof (evolves_init b vm o y) as H1.
    destruct (init vm o y) as [r y1]. simpl in H1.
    etrans; [exact H1 | apply IH].
Qed.

Lemma evolves_call_val b callee this args :
  respects (evolves b) (call_val init extern callee this args).
Proof.
  unfold call_val. destruct callee as [| | | | | |c|[|name]];
    try (apply respects_throw; tc_solve); try apply evolves_exec.
  apply respects_bind; [tc_solve | apply evolves_init |].
  intros _. apply respects_ret. tc_solve.
Qed.

(** The operations that log a milestone do so for the construction they
    are given, and never log a uid. *)
Lemma evolves_import b id name args :
  (b ≤ id)%Z → step_of_call name args ≠ Some SUid →
  respects (evolves b) (import extern init id name args).
Proof.
  intros Hb Hst. unfold import.
  apply respects_bind; [tc_solve | by apply evolves_note | intros _].
  apply respects_bind; [tc_solve | apply evolves_exec | intros _].
  apply respects_ret. tc_solve.
Qed.

Lemma evolves_assign b id vm key x :
  (b ≤ id)%Z → step_of_key key ≠ Some SUid →
  respects (evolves b) (assign id vm key x).
Proof.
  intros Hb Hst. unfold assign.
  apply respects_bind; [tc_solve | apply evolves_lift | intros _].
  by apply evolves_note.
Qed.

Lemma evolves_invoke b id vm name args :
  (b ≤ id)%Z → step_of_method name args ≠ Some SUid →
  respects (evolves b) (invoke extern init id vm name args).
Proof.
  intros Hb Hst. unfold invoke.
  apply respects_bind; [tc_solve | apply evolves_lift | intros f].
  apply respects_bind; [tc_solve | by apply evolves_note | intros _].
  apply evolves_call_val.
Qed.

Ltac evolves_step :=
  lazymatch goal with
  | |- respects _ (bind _ _) => apply respects_bind; [tc_solve | | intros ?]
  | |- respects _ (if _ then _ else _) => apply respects_if
  | |- respects _ (ret _) => apply respects_ret; tc_solve
  | |- respects _ (throw _) => apply respects_throw; tc_solve
  | |- respects _ (lift _) => apply evolves_lift
  | |- respects _ (emit (EWarn _)) => apply evolves_warn
  | |- respects _ (import _ _ _ _ _) => apply evolves_import; [lia | by cbv]
  | |- respects _ (assign _ _ _ _) => apply evolves_assign; [lia | by cbv]
  | |- respects _ (invoke _ _ _ _ _ _) => apply evolves_invoke; [lia | by cbv]
  | |- respects _ (exec _ _) => apply evolves_exec
  | |- respects _ (call_val _ _ _ _ _) => apply evolves_call_val
  end.

Lemma evolves_rest b fuel id vm o :
  (b ≤ id)%Z →
  respects (evolves b) (init_rest mergeOptions production extern init fuel id vm o).
Proof. intros Hb. unfold init_rest. repeat evolves_step. Qed.

Lemma evolves_body b fuel id vm o :
  (b ≤ id)%Z →
  respects (evolves b) (init_body mergeOptions production extern init fuel id vm o).
Proof.
  intros Hb. unfold init_body.
  apply respects_bind; [tc_solve | apply evolves_lift | intros _].
  by apply evolves_rest.
Qed.

Lemma evolves_auto_mount b id vm :
  (b ≤ id)%Z → respects (evolves b) (auto_mount extern init id vm).
Proof. intros Hb. unfold auto_mount. repeat evolves_step. Qed.

(** *** Milestones *)















(** *** The order alone, whatever the counter *)










End Exec_evolves.

Abbreviation init_ := (_init mergeOptions production extern).

Lemma evolves__init fuel vm o y : evolves (uid y) y (init_ fuel vm o y).2.
Proof.
  revert vm o y. induction fuel as [|fuel IH]; intros vm o y; [simpl; reflexivity|].
  cbn [_init]. unfold bind at 1. cbn [fresh_uid].
  etrans; [apply (evolves_fresh_uid vm y)|].
  apply (respects_bind (evolves (uid y))).
  - by apply evolves_body.
  - intros _. by apply evolves_auto_mount.
Qed.

(** What follows the taking of the uid, in one piece. *)
Lemma evolves_after_uid fuel vm o id :
  respects (evolves id)
    (init_body mergeOptions production extern (init_ fuel) fuel id vm o;;
     auto_mount extern (init_ fuel) id vm).
Proof.
  apply (respects_bind (evolves id)).
  - apply evolves_body; [apply evolves__init | lia].
  - intros _. apply evolves_auto_mount; [apply evolves__init | lia].
Qed.

End Evolves.

Lemma zsat_lookup a n i :
  i < n → zsat a n !! i = Some ((a + Z.of_nat i) `min` uid_limit)%Z.
Proof.
  intros Hi. unfold zsat. rewrite list_lookup_fmap.
  by rewrite (proj2 (lookup_seq 0 n i i) (conj eq_refl Hi)).
Qed.

Lemma uid_limit_pos : (0 < uid_limit)%Z.
Proof. done. Qed.

(** Past 2^53 + 1 increments from 0, the value 2^53 has been taken twice. *)
Lemma zsat_repeats n : (uid_limit + 1 < Z.of_nat n)%Z → ¬ NoDup (zsat 0 n).
Proof.
  pose proof uid_limit_pos as Hpos. intros Hn Hnd.
  assert (∃ i, Z.of_nat i = uid_limit) as [i Hi] by (exists (Z.to_nat uid_limit); lia).
  assert (zsat 0 n !! i = Some uid_limit) as H1.
  { rewrite zsat_lookup; [|lia]. f_equal. lia. }
  assert (zsat 0 n !! S i = Some uid_limit) as H2.
  { rewrite zsat_lookup; [|lia]. f_equal. lia. }
  pose proof (NoDup_lookup _ _ _ _ Hnd H1 H2). lia.
Qed.

Section Init.
Variable mergeOptions :
  val → val → val → list klass → list obj → outcome val * list obj.
Variable production : bool.
Variable extern : val → val → list val → script.
Abbreviation init_ := (_init mergeOptions production extern).

(** C2, as amended.  Whatever program runs, from a state whose counter is
    at most 2^53: the counter never goes down and stays at most 2^53, and
    the uids taken by the constructions, in the order in which the
    initialiser is entered, are the successive values of a counter that
    goes up by one until it reaches 2^53 and then stays there.  From the
    initial state, where the counter is 0, the [N] constructions of a run
    take exactly [0, 1, ..., N-1] as long as [N] is at most 2^53 + 1; a run
    of more constructions takes 2^53 more than once.  Each call of the
    initialiser takes the current value of the counter, stores it in the
    [_uid] field of its instance before anything else, and increments the
    counter (strictly below 2^53, not at all at 2^53). *)
Theorem uids_consecutive fuel sc :
  (∀ y, (uid y ≤ uid_limit)%Z →
     let y' := (exec (init_ fuel) sc y).2 in
     (uid y ≤ uid y' ≤ uid_limit)%Z ∧
     ∃ l, log y' = log y ++ l ∧
          uids l = zsat (uid y) (length (uids l)) ∧
          uid y' = ((uid y + Z.of_nat (length (uids l))) `min` uid_limit)%Z) ∧
  (∀ s, let y' := (exec (init_ fuel) sc (init_sys s)).2 in
     let N := length (uids (log y')) in
     uid y' = (Z.of_nat N `min` uid_limit)%Z ∧
     ((Z.of_nat N ≤ uid_limit + 1)%Z → uids (log y') = zseq 0 N) ∧
     ((uid_limit + 1 < Z.of_nat N)%Z → ¬ NoDup (uids (log y')))) ∧
  (∀ vm o y, (uid y ≤ uid_limit)%Z →
     let y' := (init_ (S fuel) vm o y).2 in
     (uid y ≤ uid y' ≤ uid_limit)%Z ∧
     ((uid y < uid_limit)%Z → (uid y < uid y')%Z) ∧
     (uid y = uid_limit → uid y' = uid_limit) ∧
     ∃ l, log y' = log y ++ Ev (uid y) vm SUid :: l) ∧
  (∀ l o0 o y, (uid y ≤ uid_limit)%Z → objs (sstore y) !! l = Some o0 →
     init_ (S fuel) (VObj l) o y =
       (init_rest mergeOptions production extern (init_ fuel) fuel (uid y) (VObj l) o;;
        auto_mount extern (init_ fuel) (uid y) (VObj l))
         (Sys (set_objs (<[l := Obj (proto o0) (<["_uid" := VNum (uid y)]> (props o0))]>
                           (objs (sstore y))) (sstore y))
              (next_uid (uid y)) (log y ++ [Ev (uid y) (VObj l) SUid]))).
Proof.
  split; [|split; [|split]].
  - intros y Hlim y'.
    destruct (evolves_exec (init_ fuel) (evolves__init _ _ _ fuel) (uid y) sc y
                ltac:(lia)) as (Hle & l & Hl & _ & Hc).
    destruct (Hc Hlim) as (Hlim' & Hu & He).
    split; [done|]. by exists l.
  - intros s y' N.
    destruct (evolves_exec (init_ fuel) (evolves__init _ _ _ fuel) 0 sc (init_sys s)
                ltac:(simpl; lia)) as (Hle & l & Hl & _ & Hc).
    destruct (Hc ltac:(simpl; pose proof uid_limit_pos; lia)) as (Hlim' & Hu & He).
    fold y' in Hle, Hl, Hlim', He. simpl in Hl, He, Hu.
    assert (uids (log y') = zsat 0 N) as HN by (by rewrite /N Hl).
    split; [by rewrite /N Hl|]. split.
    + intros HNle. rewrite HN. apply zsat_zseq. lia.
    + intros HNgt. rewrite HN. by apply zsat_repeats.
  - intros vm o y Hlim y'.
    set (y1 := Sys (sstore y) (next_uid (uid y)) (log y ++ [Ev (uid y) vm SUid])).
    assert (y' = ((init_body mergeOptions production extern (init_ fuel) fuel
                     (uid y) vm o;;
                   auto_mount extern (init_ fuel) (uid y) vm) y1).2) as -> by done.
    pose proof (next_uid_le (uid y)) as Hn.
    destruct (evolves_after_uid mergeOptions production extern fuel vm o (uid y) y1
                ltac:(simpl; lia)) as (Hle & l & Hl & _ & Hc).
    change (uid y1) with (next_uid (uid y)) in Hle, Hc.
    rewrite next_uid_min in Hle, Hc; [|lia..].
    destruct Hc as (Hlim' & _); [lia|].
    split; [lia|]. split; [lia|]. split; [lia|].
    exists l. by rewrite Hl /= -assoc_L.
  - intros l o0 o y _ Hl. cbn [_init]. unfold bind at 1. cbn [fresh_uid].
    unfold init_body. rewrite bind_assoc_run.
    erewrite bind_ret_run; [done|]. unfold lift. cbn [sstore uid log].
    by rewrite (set_run l _ _ _ o0 Hl).
Qed.


End Init.

(** ** The mount and the constructor function *)

Lemma set_ret_inv v k x s s' : set v k x s = (Ret tt, s') → ∃ l, v = VObj l.
Proof. unfold set. destruct v; try done. eauto. Qed.

Lemma lift_get_run v k y :
  v ≠ VUndef → v ≠ VNull →
  lift (get v k) y = (Ret (field (objs (sstore y)) v k), y).
Proof. intros ??. unfold lift. rewrite get_run //. by destruct y. Qed.

Lemma lift_ret_inv {A} (m : H A) y a y' :
  lift m y = (Ret a, y') →
  m (sstore y) = (Ret a, sstore y') ∧ uid y' = uid y ∧ log y' = log y.
Proof.
  unfold lift. destruct (m (sstore y)) as [r s] eqn:E. intros [= -> <-]. done.
Qed.

Section Mount.
Variable mergeOptions :
  val → val → val → list klass → list obj → outcome val * list obj.
Variable production : bool.
Variable extern : val → val → list val → script.
Abbreviation init_ := (_init mergeOptions production extern).

(** C6.  Once the [created] hook has returned, the initialiser reads
    [vm.$options.el]: when the value is truthy it calls [vm.$mount] on the
    instance with that value, and when there is none (or a falsy one) it
    returns at once, without any call. *)
Theorem mount_when_el fuel vm o y y1 :
  init_body mergeOptions production extern (init_ fuel) fuel (uid y) vm o
    (fresh_uid vm y).2 = (Ret tt, y1) →
  let opts := field (objs (sstore y1)) vm "$options" in
  let el := field (objs (sstore y1)) opts "el" in
  opts ≠ VUndef → opts ≠ VNull →
  (truthy el = true →
     init_ (S fuel) vm o y =
       (call_val (init_ fuel) extern (field (objs (sstore y1)) vm "$mount") vm [el];;
        ret tt)
         (Sys (sstore y1) (uid y1) (log y1 ++ [Ev (uid y) vm (SMount el)]))) ∧
  (truthy el = false → init_ (S fuel) vm o y = (Ret tt, y1)).
Proof.
  intros Hbody opts el ??.
  assert (∃ l, vm = VObj l) as [l ->].
  { unfold init_body in Hbody. apply bind_inv_ret in Hbody as ([] & y2 & Hset & _).
    apply lift_ret_inv in Hset as [Hset _]. by apply set_ret_inv in Hset. }
  assert (init_ (S fuel) (VObj l) o y =
          auto_mount extern (init_ fuel) (uid y) (VObj l) y1) as ->.
  { cbn [_init]. unfold bind at 1. cbn [fresh_uid].
    by rewrite (bind_ret_run _ _ _ _ _ Hbody). }
  unfold auto_mount.
  rewrite (bind_ret_run _ _ _ _ _ (lift_get_run (VObj l) "$options" y1 _ _)) //.
  fold opts.
  rewrite (bind_ret_run _ _ _ _ _ (lift_get_run opts "el" y1 _ _)) //.
  fold el. split; intros ->; [|done].
  unfold invoke. rewrite bind_assoc_run.
  rewrite (bind_ret_run _ _ _ _ _ (lift_get_run (VObj l) "$mount" y1 _ _)) //.
Qed.

(** C9, as amended.  In a development build, for a receiver that is not an
    instance of [Vue], the warning is reported and, when [warn] returns,
    the constructor goes on to call [this._init(options)] as it does for a
    regular call.  The initialiser runs when the receiver has it as its
    [_init]; a receiver that is [undefined] or [null], or an object
    without [_init], makes that call throw a [TypeError]. *)
Theorem Vue_without_new fuel VueCtor this options y rw yw :
  production = false →
  instanceof this VueCtor (sstore y) = (Ret false, sstore y) →
  exec (init_ fuel) (extern (VFun (FExt "warn")) VUndef [VStr warning])
       (Sys (sstore y) (uid y) (log y ++ [EWarn warning])) = (Ret rw, yw) →
  Vue mergeOptions production extern fuel VueCtor this options y =
    (let! f := lift (get this "_init") in
     call_val (init_ fuel) extern f this [options];; ret tt) yw ∧
  (∀ l, this = VObj l → field (objs (sstore yw)) this "_init" = VFun FInit →
     Vue mergeOptions production extern fuel VueCtor this options y =
       (init_ fuel this options;; ret tt) yw) ∧
  (this = VUndef ∨ this = VNull ∨
   (∃ l, this = VObj l ∧ field (objs (sstore yw)) this "_init" = VUndef) →
     Vue mergeOptions production extern fuel VueCtor this options y =
       (Throw TypeError, yw)).
Proof.
  intros -> Hinst Hwarn.
  assert (Vue mergeOptions false extern fuel VueCtor this options y =
    (let! f := lift (get this "_init") in
     call_val (_init mergeOptions false extern fuel) extern f this [options];;
     ret tt) yw) as Heq.
  { unfold Vue. cbn [negb].
    rewrite (bind_ret_run _ _ _ true y); last first.
    { rewrite (bind_ret_run _ _ _ false y) //.
      unfold lift. rewrite Hinst. by destruct y. }
    rewrite (bind_ret_run _ _ _ tt yw); [done|].
    rewrite (bind_ret_run _ _ _ tt
               (Sys (sstore y) (uid y) (log y ++ [EWarn warning]))); [|done].
    by rewrite (bind_ret_run _ _ _ _ _ Hwarn). }
  split; [done|]. split.
  - intros l -> Hf. rewrite Heq.
    rewrite (bind_ret_run _ _ _ _ _ (lift_get_run (VObj l) "_init" yw _ _)) // Hf.
    cbn [call_val hd]. unfold bind.
    by destruct (_init mergeOptions false extern fuel (VObj l) options yw)
      as [[[]|e] y2].
  - intros [->|[->|(l & -> & Hf)]]; rewrite Heq.
    + rewrite /bind /lift /=. by destruct yw.
    + rewrite /bind /lift /=. by destruct yw.
    + by rewrite (bind_ret_run _ _ _ _ _ (lift_get_run (VObj l) "_init" yw _ _)) // Hf.
Qed.

End Mount.

(** ** The initialiser at work on [demo_app] *)

Lemma uids_consecutive_demo :
  let y' := (exec (demo_init 4) (Construct (VObj 8) (VObj 14) (λ _, Done VUndef))
               (init_sys demo_app)).2 in
  uid y' = 2%Z ∧ uids (log y') = zseq 0 2.
Proof.
  intros y'.
  destruct (uids_consecutive shallow_merge false demo_extern 4
              (Construct (VObj 8) (VObj 14) (λ _, Done VUndef)))
    as (_ & H2 & _).
  destruct (H2 demo_app) as (Hu & Hseq & _). fold y' in Hu, Hseq.
  assert (length (uids (log y')) = 2) as E by (vm_compute; reflexivity).
  rewrite E in Hu, Hseq. split; [exact Hu|]. apply Hseq. by vm_compute.
Defined.

(** C2 as stated fails.  With the counter at 2^53, where 2^53 constructions
    leave it, the construction of the instance 8 and, nested in it, that of
    the child 13 both take 2^53: the [_uid] fields of the two instances
    are equal. *)
Lemma uid_repeats_at_limit :
  let y' := (demo_init 4 (VObj 8) (VObj 14) (Sys demo_app uid_limit [])).2 in
  uids (log y') = [uid_limit; uid_limit] ∧
  field (objs (sstore y')) (VObj 8) "_uid" = VNum uid_limit ∧
  field (objs (sstore y')) (VObj 13) "_uid" = VNum uid_limit ∧
  uid y' = uid_limit.
Proof. repeat split; vm_compute; reflexivity. Qed.


Lemma mount_when_el_demo :
  ∃ y1, demo_init 4 (VObj 8) (VObj 14) (init_sys demo_app) =
          (call_val (demo_init 3) demo_extern (VFun (FExt "$mount")) (VObj 8)
             [VStr "#app"];; ret tt)
            (Sys (sstore y1) (uid y1) (log y1 ++ [Ev 0 (VObj 8) (SMount (VStr "#app"))])).
Proof.
  pose (y1 := (init_body shallow_merge false demo_extern (demo_init 3) 3 0 (VObj 8)
                 (VObj 14) (fresh_uid (VObj 8) (init_sys demo_app)).2).2).
  assert (init_body shallow_merge false demo_extern (demo_init 3) 3
            (uid (init_sys demo_app)) (VObj 8) (VObj 14)
            (fresh_uid (VObj 8) (init_sys demo_app)).2 = (Ret tt, y1)) as H1
    by (vm_compute; reflexivity).
  assert (field (objs (sstore y1)) (VObj 8) "$options" = VObj 17) as Ho
    by (vm_compute; reflexivity).
  assert (field (objs (sstore y1)) (VObj 17) "el" = VStr "#app") as Hel
    by (vm_compute; reflexivity).
  assert (field (objs (sstore y1)) (VObj 8) "$mount" = VFun (FExt "$mount")) as Hm
    by (vm_compute; reflexivity).
  destruct (mount_when_el shallow_merge false demo_extern 3 (VObj 8) (VObj 14)
              (init_sys demo_app) y1 H1) as [Hyes _].
  - rewrite Ho. discriminate.
  - rewrite Ho. discriminate.
  - exists y1. rewrite Ho Hel Hm in Hyes. exact (Hyes eq_refl).
Defined.

(** C9 as stated fails.  In the development build, [Vue(options)] called
    as a plain function, with [undefined] or with some plain object as its
    receiver, reports the warning and then throws: no instance is built. *)
Lemma Vue_without_new_throws :
  Vue shallow_merge false demo_extern 4 0 VUndef (VObj 14) (init_sys demo_app) =
    (Throw TypeError, Sys demo_app 0 [EWarn warning]) ∧
  instanceof (VObj 1) 0 demo_app = (Ret false, demo_app) ∧
  Vue shallow_merge false demo_extern 4 0 (VObj 1) (VObj 14) (init_sys demo_app) =
    (Throw TypeError, Sys demo_app 0 [EWarn warning]).
Proof. repeat split; vm_compute; reflexivity. Qed.

Lemma Vue_without_new_demo :
  Vue shallow_merge false demo_extern 4 0 (VObj 1) (VObj 14) (init_sys demo_app) =
    (Throw TypeError, Sys demo_app 0 [EWarn warning]).
Proof.
  destruct (Vue_without_new shallow_merge false demo_extern 4 0 (VObj 1) (VObj 14)
              (init_sys demo_app) VUndef (Sys demo_app 0 [EWarn warning]))
    as (_ & _ & Hthrow).
  - reflexivity.
  - vm_compute. reflexivity.
  - vm_compute. reflexivity.
  - apply Hthrow. right. right. exists 1. split; [reflexivity|].
    vm_compute. reflexivity.
Defined.

(** * Further properties of the resolver *)

(** ** The late-modification diff *)

Lemma flat_nonempty_obj h v : flat h v ≠ ∅ → ∃ l, v = VObj l.
Proof. destruct v; try done. eauto. Qed.

(** X1.  [resolveModifiedOptions] computes exactly the late options: the
    keys that [for-in] finds on [Ctor.options], own or inherited, whose
    value is not the one the object [Ctor.sealedOptions] gives.  When
    there is none it returns [undefined] and leaves the store alone;
    otherwise it returns one new object that holds them, and touches
    nothing else. *)
Theorem resolveModifiedOptions_late C s k sealed :
  classes s !! C = Some k →
  heap_wf (objs s) →
  optional_object (Cls.options k) → val_ok (objs s) (Cls.options k) →
  Cls.sealedOptions k = VObj sealed → sealed < length (objs s) →
  let m := late_options (objs s) (Cls.options k) (VObj sealed) in
  (m = ∅ → resolveModifiedOptions C s = (Ret VUndef, s)) ∧
  (m ≠ ∅ →
     resolveModifiedOptions C s =
       (Ret (VObj (length (objs s))), set_objs (objs s ++ [Obj VNull m]) s)).
Proof.
  intros E Hwf _ Hl Hse Hs m.
  pose proof (resolveModifiedOptions_run C s k E Hwf Hl) as Hrun.
  rewrite Hse in Hrun. specialize (Hrun Hs ltac:(done) ltac:(done)).
  fold m in Hrun. unfold modified_at in Hrun.
  split; intros Hm; rewrite Hrun; case_decide; try done.
  by destruct s.
Qed.

(** X2.  A class without [sealedOptions]: the comparison
    [latest[key] !== sealed[key]] throws a [TypeError] at the first key of
    [Ctor.options], before anything is allocated; when [Ctor.options] has
    no enumerable key the loop body never runs and the result is
    [undefined]. *)
Theorem resolveModifiedOptions_unsealed C s k :
  classes s !! C = Some k →
  optional_object (Cls.options k) →
  Cls.sealedOptions k = VUndef ∨ Cls.sealedOptions k = VNull →
  (flat (objs s) (Cls.options k) = ∅ →
     resolveModifiedOptions C s = (Ret VUndef, s)) ∧
  (flat (objs s) (Cls.options k) ≠ ∅ →
     resolveModifiedOptions C s = (Throw TypeError, s)).
Proof.
  intros E _ Hse. unfold resolveModifiedOptions.
  rewrite (bind_ret_run _ _ _ _ _ (read_class_run C Cls.options s k E)).
  rewrite (bind_ret_run _ _ _ _ _ (read_class_run C Cls.sealedOptions s k E)).
  rewrite (bind_ret_run _ _ _ _ _ (for_in_keys_run _ s)).
  split; intros Hf.
  - by rewrite Hf dom_empty_L elements_empty.
  - destruct (flat_nonempty_obj _ _ Hf) as [l Hl].
    destruct (elements (dom (flat (objs s) (Cls.options k)))) as [|key keys] eqn:Ek.
    { apply elements_empty_inv in Ek. apply leibniz_equiv in Ek.
      by apply dom_empty_inv_L in Ek. }
    cbn [foldM]. unfold diff_key.
    apply bind_throw_run.
    rewrite (bind_ret_run _ _ _ _ _ (get_run _ key s _ _)); [|by rewrite Hl..].
    apply bind_throw_run. by destruct Hse as [-> | ->].
Qed.

(** ** The class table *)

Section Resolver_more.
Variable mergeOptions :
  val → val → val → list klass → list obj → outcome val * list obj.
Abbreviation resolve := (resolveConstructorOptions mergeOptions).

(** X3.  What resolution never does to the class table: the table keeps
    its size, no class changes its [super], its [extendOptions] reference
    or its [prototype], and a class that is not on the [super] chain of
    [Ctor] keeps all its fields, whatever the outcome of the call. *)
Theorem resolve_keeps_hierarchy n C s c :
  let s' := (resolveConstructorOptions mergeOptions n C s).2 in
  length (classes s') = length (classes s) ∧
  Cls.super <$> classes s' !! c = Cls.super <$> classes s !! c ∧
  Cls.extendOptions <$> classes s' !! c = Cls.extendOptions <$> classes s !! c ∧
  Cls.prototype <$> classes s' !! c = Cls.prototype <$> classes s !! c ∧
  (¬ ancestor (classes s) C c → classes s' !! c = classes s !! c).
Proof.
  intros s'. destruct (resolve_shape mergeOptions n C s) as [Hlen Hsh].
  fold s' in Hlen, Hsh. split; [done|].
  assert (classes s !! c = None → classes s' !! c = None) as Hnone.
  { intros En. apply lookup_ge_None in En. apply lookup_ge_None. lia. }
  destruct (classes s !! c) as [k|] eqn:E.
  - destruct (Hsh _ _ E) as (k' & E' & Hs & He & _ & Hp).
    rewrite E' /= Hs He Hp. repeat (split; [done|]).
    intros Hna. rewrite -E' -E. exact (resolve_frame mergeOptions n C s c Hna).
  - rewrite (Hnone eq_refl). done.
Qed.

(** X4.  The value returned is what [Ctor.options] holds after the call,
    and the cache is coherent: [Ctor.superOptions] is then the current
    [options] of the parent class. *)
Theorem resolve_returns_options n C s v s' :
  resolveConstructorOptions mergeOptions n C s = (Ret v, s') →
  ∃ k', classes s' !! C = Some k' ∧ Cls.options k' = v ∧
    ∀ P, Cls.super k' = Some P →
      ∃ kp, classes s' !! P = Some kp ∧ Cls.superOptions k' = Cls.options kp.
Proof.
  intros Hr. destruct (resolve_settles mergeOptions _ _ _ _ _ Hr) as (Hst & k' & E' & Hv).
  exists k'. split; [done|]. split; [done|]. intros P HP.
  destruct n as [|n]; [done|]. simpl in Hst. rewrite E' HP in Hst.
  apply andb_true_iff in Hst as [_ Hst].
  destruct (classes s' !! P) as [kp|]; [|done].
  apply bool_decide_eq_true in Hst. eauto.
Qed.

(** X5.  Staleness is judged by identity alone.  Once a resolution has
    returned, mutating objects in place, in any way, triggers no re-merge:
    as long as no class field is reassigned, the next resolution returns
    the same value and writes nothing. *)
Theorem resolve_blind_to_mutation n C s v s' h :
  resolveConstructorOptions mergeOptions n C s = (Ret v, s') →
  resolveConstructorOptions mergeOptions n C (set_objs h s') =
    (Ret v, set_objs h s').
Proof.
  intros Hr. destruct (resolve_settles mergeOptions _ _ _ _ _ Hr) as (Hst & k' & E' & Hv).
  destruct (settled_resolve mergeOptions n (set_objs h s') C Hst) as (k'' & E'' & Hr').
  simpl in E''. by simplify_eq.
Qed.

(** ** Depth of the recursion *)

Lemma ancestor_trans ct A B D :
  ancestor ct A B → ancestor ct B D → ancestor ct A D.
Proof.
  intros HAB HBD. induction HAB as [A | A k P B E Hs _ IH]; [done|].
  exact (ancestor_step _ _ _ _ _ E Hs (IH HBD)).
Qed.

Lemma cyclic_super ct C k P :
  cyclic ct C → ct !! C = Some k → Cls.super k = Some P → cyclic ct P.
Proof.
  intros (k0 & P0 & E0 & Hs0 & Ha) E Hs.
  assert (k0 = k) as -> by congruence. assert (P0 = P) as -> by congruence.
  destruct Ha as [A | A kp P2 B Ep Hsp Ha2].
  - exists k, A. split; [done|]. split; [done|]. apply ancestor_refl.
  - exists kp, P2. split; [done|]. split; [done|].
    apply (ancestor_trans _ _ _ _ Ha2).
    exact (ancestor_step _ _ _ _ _ E Hs (ancestor_refl _ _)).
Qed.

(** X6.  On a cyclic [super] chain the recursion never gets to the root:
    whatever depth of stack is available, the call ends in the engine's
    [RangeError], and nothing has been written. *)
Theorem resolve_cycle_overflows n C s :
  cyclic (classes s) C →
  resolveConstructorOptions mergeOptions n C s = (Throw RangeError, s).
Proof.
  revert C. induction n as [|n IH]; intros C Hc; [done|].
  destruct Hc as (k & P & E & Hs & Ha).
  rewrite (resolve_unfold mergeOptions _ _ _ _ E) Hs.
  apply bind_throw_run, IH.
  apply (cyclic_super _ C k P); [|done..]. by exists k, P.
Qed.

Lemma resolve_shallow n C s d :
  height (classes s) C d → n ≤ d →
  resolve n C s = (Throw RangeError, s).
Proof.
  intros Hd. revert n. induction Hd as [C k E Hs | C k P d E Hs _ IH]; intros n Hn.
  - by assert (n = 0) as -> by lia.
  - destruct n as [|n]; [done|].
    rewrite (resolve_unfold mergeOptions _ _ _ _ E) Hs.
    apply bind_throw_run, IH. lia.
Qed.

(** X7.  The recursion goes down the whole [super] chain before anything is
    written: for a class [d] steps below the root, a call that has room
    for [d] frames or fewer ends in the engine's [RangeError], and the
    store is as it was. *)
Theorem resolve_depth C s d n :
  height (classes s) C d → n ≤ d →
  resolveConstructorOptions mergeOptions n C s = (Throw RangeError, s).
Proof. intros Hd Hn. by apply (resolve_shallow n C s d). Qed.

End Resolver_more.

(** ** Registration under the class's own name, and failures half-way *)

Section Remerge_more.
Variable mergeOptions :
  val → val → val → list klass → list obj → outcome val * list obj.
Abbreviation resolve := (resolveConstructorOptions mergeOptions).

(** X8.  A class whose merged options have no [name] (or a falsy one) is
    not registered anywhere: once the merge has returned its object, the
    call stores it in [Ctor.options] and writes nothing to the heap. *)
Theorem unnamed_class_not_registered n C s k P sup s1 s3 merged h4 :
  classes s !! C = Some k → Cls.super k = Some P →
  resolveConstructorOptions mergeOptions n P s = (Ret sup, s1) →
  sup ≠ Cls.superOptions k →
  absorb_late_options C
    (set_classes (<[C := with_superOptions sup k]> (classes s1)) s1) = (Ret tt, s3) →
  mergeOptions sup (Cls.extendOptions k) VUndef (classes s3) (objs s3) =
    (Ret (VObj merged), h4) →
  truthy (field h4 (VObj merged) "name") = false →
  resolveConstructorOptions mergeOptions (S n) C s =
    (Ret (VObj merged),
     Store h4 (<[C := with_options (VObj merged) (with_superOptions sup k)]>
                 (classes s1))).
Proof.
  intros E Hs Hp Hne Ha Hm Hname.
  pose proof (resolve_parent_frame mergeOptions _ _ _ _ _ _ _ E Hs Hp) as E1.
  rewrite (resolve_remerge_eq mergeOptions _ _ _ _ _ _ _ E Hs Hp Hne).
  rewrite (remerge_unfold mergeOptions _ _ _ _ _ _ _ E1 Ha Hm). unfold self_register.
  rewrite bind_assoc_run.
  erewrite bind_ret_run; [|by apply get_run].
  cbn [objs]. by rewrite Hname.
Qed.

(** X9.  The registration has no guard: when the merge gives [undefined] or
    [null], or options with a [name] and no [components] object, the
    statement [options.components[options.name] = Ctor] throws a
    [TypeError].  By then [Ctor.superOptions] and [Ctor.options] have been
    assigned: the class keeps the new options. *)
Theorem registration_without_components n C s k P sup s1 s3 merged h4 :
  classes s !! C = Some k → Cls.super k = Some P →
  resolveConstructorOptions mergeOptions n P s = (Ret sup, s1) →
  sup ≠ Cls.superOptions k →
  absorb_late_options C
    (set_classes (<[C := with_superOptions sup k]> (classes s1)) s1) = (Ret tt, s3) →
  mergeOptions sup (Cls.extendOptions k) VUndef (classes s3) (objs s3) =
    (Ret merged, h4) →
  merged = VUndef ∨ merged = VNull ∨
  (truthy (field h4 merged "name") = true ∧
   (field h4 merged "components" = VUndef ∨
    field h4 merged "components" = VNull)) →
  resolveConstructorOptions mergeOptions (S n) C s =
    (Throw TypeError,
     Store h4 (<[C := with_options merged (with_superOptions sup k)]> (classes s1))).
Proof.
  intros E Hs Hp Hne Ha Hm Hbad.
  pose proof (resolve_parent_frame mergeOptions _ _ _ _ _ _ _ E Hs Hp) as E1.
  rewrite (resolve_remerge_eq mergeOptions _ _ _ _ _ _ _ E Hs Hp Hne).
  rewrite (remerge_unfold mergeOptions _ _ _ _ _ _ _ E1 Ha Hm). unfold self_register.
  rewrite bind_assoc_run.
  destruct Hbad as [-> | [-> | [Hname Hcomp]]]; [done..|].
  assert (merged ≠ VUndef ∧ merged ≠ VNull) as [??].
  { split; intros ->; done. }
  erewrite bind_ret_run; [|by apply get_run].
  cbn [objs]. rewrite Hname.
  rewrite bind_assoc_run.
  erewrite bind_ret_run; [|by apply get_run].
  cbn [objs]. by destruct Hcomp as [-> | ->].
Qed.

(** Where a re-merge that throws leaves the class table: the cache has
    been refreshed, with or without new options. *)
Lemma remerge_throws C sup s1 k e s' :
  classes s1 !! C = Some k →
  remerge mergeOptions C sup s1 = (Throw e, s') →
  classes s' = <[C := with_superOptions sup k]> (classes s1) ∨
  ∃ merged,
    classes s' = <[C := with_options merged (with_superOptions sup k)]> (classes s1).
Proof.
  intros E Hr. unfold remerge in Hr.
  assert (C < length (classes s1)) as Hlt by (by apply (lookup_lt_Some _ _ _ E)).
  rewrite (bind_ret_run _ _ _ tt
    (set_classes (<[C := with_superOptions sup k]> (classes s1)) s1)) in Hr;
    [|by rewrite /write_class E].
  apply bind_inv in Hr as [([] & s3 & Ha & Hr) | (e' & Ha & _)]; last first.
  { left. exact (respects_run _ _ _ _ _ (respects_absorb _ on_classes_same C) Ha). }
  pose proof (respects_run _ _ _ _ _ (respects_absorb _ on_classes_same C) Ha) as H3.
  unfold same_classes in H3. simpl in H3.
  assert (classes s3 !! C = Some (with_superOptions sup k)) as E3.
  { by rewrite H3 list_lookup_insert_eq. }
  rewrite (bind_ret_run _ _ _ _ _ (read_class_run C Cls.extendOptions s3 _ E3)) in Hr.
  apply bind_inv in Hr as [(merged & s4 & Hm & Hr) | (e' & Hm & _)]; last first.
  { left. rewrite -H3.
    exact (respects_run _ _ _ _ _ (respects_merge _ on_classes_same _ _ _ _) Hm). }
  pose proof (respects_run _ _ _ _ _ (respects_merge _ on_classes_same _ _ _ _) Hm)
    as H4.
  unfold same_classes in H4.
  right. exists merged.
  rewrite (bind_ret_run _ _ _ tt
    (set_classes (<[C := with_options merged (with_superOptions sup k)]> (classes s1))
       s4)) in Hr; last first.
  { unfold write_class. cbn beta. rewrite H4 E3. unfold set_classes.
    by rewrite H3 list_insert_insert_eq. }
  apply bind_inv in Hr as [([] & s6 & Hs & Hr) | (e' & Hs & _)]; [done|].
  exact (respects_run _ _ _ _ _ (respects_self_register _ on_classes_same C merged) Hs).
Qed.

(** X10.  A re-merge that fails is not tried again.  The cache
    [Ctor.superOptions] is refreshed before the late options are collected
    and the merge is run, so when one of these steps throws, the next
    resolution finds the cache up to date and returns whatever
    [Ctor.options] holds, without merging. *)
Theorem failed_remerge_not_retried n C s k P sup s1 e s' :
  classes s !! C = Some k → Cls.super k = Some P →
  resolveConstructorOptions mergeOptions n P s = (Ret sup, s1) →
  sup ≠ Cls.superOptions k →
  resolveConstructorOptions mergeOptions (S n) C s = (Throw e, s') →
  ∃ k', classes s' !! C = Some k' ∧ Cls.superOptions k' = sup ∧
        resolveConstructorOptions mergeOptions (S n) C s' =
          (Ret (Cls.options k'), s').
Proof.
  intros E Hs Hp Hne Hr.
  pose proof (resolve_parent_frame mergeOptions _ _ _ _ _ _ _ E Hs Hp) as E1.
  assert (C < length (classes s1)) as Hlt by (by apply (lookup_lt_Some _ _ _ E1)).
  rewrite (resolve_remerge_eq mergeOptions _ _ _ _ _ _ _ E Hs Hp Hne) in Hr.
  assert (∃ k', classes s' = <[C := k']> (classes s1) ∧
                Cls.super k' = Some P ∧ Cls.superOptions k' = sup)
    as (k' & Hct & Hs' & Hso).
  { destruct (remerge_throws _ _ _ _ _ _ E1 Hr) as [-> | [merged ->]];
      eexists; (split; [reflexivity|]); done. }
  assert (classes s' !! C = Some k') as E'.
  { by rewrite Hct list_lookup_insert_eq. }
  exists k'. split; [done|]. split; [done|].
  destruct (resolve_settles mergeOptions _ _ _ _ _ Hp) as (HstP & kp & Ep & Hopt).
  destruct (resolve_height mergeOptions _ _ _ _ _ Hp) as [d Hd].
  pose proof (height_shape _ _ _ _ (resolve_shape mergeOptions n P s) Hd) as Hd1.
  rewrite Hp in Hd1. simpl in Hd1.
  pose proof (no_cycle _ _ _ _ _ E1 Hs Hd1) as Hnc.
  assert (settled n (classes s') P = true) as HstP'.
  { apply (settled_transport _ _ _ _ HstP). intros c Ha. rewrite Hct.
    apply list_lookup_insert_ne. intros ->. by apply Hnc. }
  destruct (settled_resolve mergeOptions n s' P HstP') as (kp' & Ep' & Hrp).
  assert (kp' = kp) as ->.
  { assert (C ≠ P) as HCP by (intros ->; apply Hnc, ancestor_refl).
    rewrite Hct list_lookup_insert_ne in Ep'; [|done]. congruence. }
  rewrite (resolve_unfold mergeOptions _ _ _ _ E') Hs' (bind_ret_run _ _ _ _ _ Hrp).
  rewrite (bind_ret_run _ _ _ _ _ (read_class_run C Cls.superOptions s' k' E')).
  rewrite (proj2 (strict_neq_false _ _)); [done | congruence].
Qed.

(** X11.  All or nothing.  With a merge engine that returns new objects, a
    resolution that returns has either changed nothing at all, and then
    its value is the [options] the class had, or re-merged the class, and
    then its value is an object that did not exist before the call. *)
Theorem resolve_all_or_nothing n C s v s' :
  merge_allocates mergeOptions → cache_ok s →
  resolveConstructorOptions mergeOptions n C s = (Ret v, s') →
  (s' = s ∧ ∃ k, classes s !! C = Some k ∧ v = Cls.options k) ∨
  (∃ l, v = VObj l ∧ length (objs s) ≤ l).
Proof.
  intros Hfresh Hok Hr.
  destruct (resolve_fresh_or_settled mergeOptions Hfresh _ _ _ _ _ Hok Hr)
    as [[-> Hst] | Hnew]; [left | by right].
  split; [done|].
  destruct (settled_resolve mergeOptions _ _ _ Hst) as (k & E & Hr').
  exists k. split; [done | congruence].
Qed.

End Remerge_more.

(** * Further properties of the fast path *)

#[global] Instance touches_only_refl vm b : Reflexive (touches_only vm b).
Proof.
  intros s _. split; [done|]. split; [done|]. intros l o _ E. by exists o.
Qed.

#[global] Instance touches_only_trans vm b : Transitive (touches_only vm b).
Proof.
  intros s1 s2 s3 H12 H23 Hb.
  destruct (H12 Hb) as (Hc1 & Hl1 & Ho1).
  destruct (H23 ltac:(lia)) as (Hc2 & Hl2 & Ho2).
  split; [congruence|]. split; [lia|]. intros l o Hl E.
  destruct (Ho1 _ _ Hl E) as (o' & E' & Hp' & Hvm' & Hk').
  destruct (Ho2 _ _ Hl E') as (o'' & E'' & Hp'' & Hvm'' & Hk'').
  exists o''. split; [done|]. split; [congruence|]. split.
  - intros Hne. rewrite Hvm'' // Hvm' //.
  - intros key Hkey. rewrite Hk'' // Hk' //.
Qed.

Lemma touches_set_vm vm b x : respects (touches_only vm b) (set vm "$options" x).
Proof.
  intros s. unfold set. destruct vm as [| | | | |v| |]; try (simpl; reflexivity).
  destruct (objs s !! v) as [vo|] eqn:Ev; [|simpl; reflexivity]. simpl.
  intros _. split; [done|]. split; [by rewrite length_insert|]. intros l o Hl E.
  destruct (decide (l = v)) as [->|Hne].
  - rewrite list_lookup_insert_eq; [|by apply (lookup_lt_Some _ _ _ Ev)].
    eexists. split; [done|]. simplify_eq. simpl. split; [done|].
    split; [done|]. intros key Hkey. by rewrite lookup_insert_ne.
  - rewrite list_lookup_insert_ne; [|done]. by exists o.
Qed.

Lemma touches_set_new vm b l k x :
  b ≤ l → respects (touches_only vm b) (set (VObj l) k x).
Proof.
  intros Hbl s. unfold set.
  destruct (objs s !! l) as [lo|] eqn:El; [|simpl; reflexivity]. simpl.
  intros Hb. split; [done|]. split; [by rewrite length_insert|]. intros l' o Hl' E.
  rewrite list_lookup_insert_ne; [|lia]. by exists o.
Qed.

Lemma touches_create vm b {A} p (k : val → H A) :
  (∀ l, b ≤ l → respects (touches_only vm b) (k (VObj l))) →
  respects (touches_only vm b) (bind (Object_create p) k).
Proof.
  intros Hk s Hb. unfold bind.
  assert (touches_only vm b s (set_objs (objs s ++ [Obj p ∅]) s)) as Hgrow.
  { intros _. split; [done|]. simpl. rewrite length_app. split; [lia|].
    intros l o Hl E. exists o. by rewrite lookup_app_l; [|lia]. }
  assert (∀ r, (bind (alloc (Obj p ∅)) k s).2 = r →
               touches_only vm b s r) as Halloc.
  { intros r <-. unfold bind, alloc. etrans; [exact Hgrow|]. by apply Hk. }
  unfold bind in Halloc.
  destruct p; simpl; try (by apply touches_only_refl); by apply Halloc.
Qed.

Lemma touches_initInternalComponent vm options b :
  respects (touches_only vm b) (initInternalComponent vm options).
Proof.
  unfold initInternalComponent.
  apply respects_bind; [tc_solve | apply respects_get; tc_solve | intros ctor].
  apply respects_bind; [tc_solve | apply respects_as_class; tc_solve | intros Ctor].
  apply respects_bind; [tc_solve | apply respects_read; tc_solve | intros copts].
  apply touches_create. intros l Hl.
  repeat respects_step ltac:(first [apply touches_set_vm | by apply touches_set_new]).
Qed.

(** X12.  The footprint of [initInternalComponent], whatever its outcome:
    no class field is assigned, no object is removed, and of the objects
    that exist it writes to the instance only, and only [$options].  The
    options supplied, the virtual node and the constructor's options are
    read and never written (unless one of them is the instance). *)
Theorem initInternalComponent_footprint vm options s :
  let s' := (initInternalComponent vm options s).2 in
  classes s' = classes s ∧
  length (objs s) ≤ length (objs s') ∧
  ∀ l o, objs s !! l = Some o →
    ∃ o', objs s' !! l = Some o' ∧ proto o' = proto o ∧
          (VObj l ≠ vm → o' = o) ∧
          (∀ key, key ≠ "$options" → props o' !! key = props o !! key).
Proof.
  intros s'.
  destruct (touches_initInternalComponent vm options (length (objs s)) s
              ltac:(lia)) as (Hc & Hlen & Ho).
  fold s' in Hc, Hlen, Ho. split; [done|]. split; [done|].
  intros l o E.
  destruct (Ho l o (lookup_lt_Some _ _ _ E) E) as (o' & E' & Hp & Hvm & Hk).
  exists o'. split; [done|]. split; [done|]. split; [|done].
  intros Hne. specialize (Hvm Hne). destruct o, o'. simpl in *. congruence.
Qed.

(** X13.  Internal options without a [_parentVnode], or with a virtual node
    that has no [componentOptions]: the property read on [undefined]
    throws a [TypeError].  By then the new [$options] object, whose
    prototype is the constructor's options, has been installed on the
    instance, with [parent] and [_parentVnode] assigned and nothing else. *)
Theorem internal_component_without_vnode s v vo options Ctor copts :
  heap_wf (objs s) →
  objs s !! v = Some vo →
  field (objs s) (VObj v) "constructor" = VClass Ctor →
  Cls.options <$> classes s !! Ctor = Some copts →
  (copts = VNull ∨ ∃ p, copts = VObj p ∧ p < length (objs s)) →
  val_ok (objs s) options → options ≠ VUndef → options ≠ VNull →
  let pv := field (objs s) options "_parentVnode" in
  let vco := field (objs s) pv "componentOptions" in
  pv = VUndef ∨ pv = VNull ∨
  (val_ok (objs s) pv ∧ (vco = VUndef ∨ vco = VNull)) →
  ∃ s', initInternalComponent (VObj v) options s = (Throw TypeError, s') ∧
    classes s' = classes s ∧
    field (objs s') (VObj v) "$options" = VObj (length (objs s)) ∧
    objs s' !! length (objs s) =
      Some (Obj copts (<["_parentVnode" := pv]>
                      (<["parent" := field (objs s) options "parent"]> ∅))).
Proof.
  destruct s as [h0 ct].
  intros Hwf Ev Hctor Hopts Hc Ho ?? pv vco Hbad.
  cbn [objs classes] in *.
  destruct (ct !! Ctor) as [kc|] eqn:Ec; [|done].
  simpl in Hopts. injection Hopts as Hopts.
  assert (v < length h0) as Hv by (by apply (lookup_lt_Some _ _ _ Ev)).
  set (po := <["_parentVnode" := pv]>
             (<["parent" := field h0 options "parent"]> (∅ : gmap string val))).
  exists (Store (internal_heap h0 v copts po) ct).
  split; [|split; [done|split]].
  - unfold initInternalComponent.
    erewrite bind_ret_run; [|by apply get_run]. cbn [objs]. rewrite Hctor.
    erewrite bind_ret_run; [|reflexivity].
    erewrite bind_ret_run; [|by apply (read_class_run Ctor Cls.options _ kc)].
    rewrite Hopts.
    erewrite (bind_ret_run _ _ _ (VObj (length h0)) (Store (h0 ++ [Obj copts ∅]) ct));
      [|by destruct Hc as [->|(p & -> & _)]].
    erewrite (bind_ret_run _ _ _ tt (Store (internal_heap h0 v copts ∅) ct));
      last first.
    { rewrite (set_run v _ _ (Store (h0 ++ [Obj copts ∅]) ct) vo) /=;
        [|by rewrite lookup_app_l].
      by rewrite /set_objs /= insert_app_l // (internal_heap_eq _ _ vo). }
    erewrite bind_ret_run; [|by apply (internal_get _ _ _ vo)]. fold pv.
    erewrite bind_ret_run; [|by apply (internal_get _ _ _ vo)].
    erewrite bind_ret_run; [|by apply (internal_set _ _ _ vo)].
    erewrite bind_ret_run; [|by apply (internal_set _ _ _ vo)].
    fold po.
    destruct Hbad as [Hpv | [Hpv | [Hpv Hvco]]];
      [apply bind_throw_run; by rewrite Hpv..|].
    destruct (decide (pv = VUndef)) as [Hu|?];
      [apply bind_throw_run; by rewrite Hu|].
    destruct (decide (pv = VNull)) as [Hu|?];
      [apply bind_throw_run; by rewrite Hu|].
    erewrite bind_ret_run; [|by apply (internal_get _ _ _ vo)]. fold vco.
    apply bind_throw_run. by destruct Hvco as [-> | ->].
  - cbn [objs].
    apply (field_own_Some _ _ _ _ _ (internal_heap_vm h0 v vo copts Ev po)).
    by rewrite lookup_insert_eq.
  - cbn [objs]. by rewrite (internal_heap_new h0 v vo copts Ev).
Qed.

(** X14.  An instance whose [constructor] is missing, or whose constructor
    has no [options]: reading [vm.constructor.options] or
    [Object.create(undefined)] throws a [TypeError], and nothing has been
    written. *)
Theorem internal_component_without_options s vm options :
  vm ≠ VUndef → vm ≠ VNull →
  field (objs s) vm "constructor" = VUndef ∨
  field (objs s) vm "constructor" = VNull ∨
  (∃ Ctor, field (objs s) vm "constructor" = VClass Ctor ∧
           Cls.options <$> classes s !! Ctor = Some VUndef) →
  initInternalComponent vm options s = (Throw TypeError, s).
Proof.
  intros ?? Hbad. unfold initInternalComponent.
  erewrite bind_ret_run; [|by apply get_run].
  destruct Hbad as [-> | [-> | (Ctor & -> & Hopts)]]; [done..|].
  erewrite bind_ret_run; [|reflexivity].
  destruct (classes s !! Ctor) as [kc|] eqn:Ec; [|done].
  simpl in Hopts. injection Hopts as Hopts.
  erewrite bind_ret_run; [|by apply (read_class_run Ctor Cls.options _ kc)].
  by rewrite Hopts.
Qed.

(** * Further properties of the initialiser *)

Lemma emit_run s u l e : emit e (Sys s u l) = (Ret tt, Sys s u (l ++ [e])).
Proof. done. Qed.

Lemma lift_set_run h ct u l v k x o :
  h !! v = Some o →
  lift (set (VObj v) k x) (Sys (Store h ct) u l) =
    (Ret tt, Sys (Store (<[v := Obj (proto o) (<[k := x]> (props o))]> h) ct) u l).
Proof. intros E. by rewrite /lift /set /= E. Qed.

Lemma lift_run {A} (m : H A) s u l r s' :
  m s = (r, s') → lift m (Sys s u l) = (r, Sys s' u l).
Proof. intros E. by rewrite /lift /= E. Qed.

Lemma assign_run id v key x st h ct u l o :
  h !! v = Some o → step_of_key key = Some st →
  assign id (VObj v) key x (Sys (Store h ct) u l) =
    (Ret tt, Sys (Store (<[v := Obj (proto o) (<[key := x]> (props o))]> h) ct) u
                 (l ++ [Ev id (VObj v) st])).
Proof.
  intros E Hst. unfold assign.
  rewrite (bind_ret_run _ _ _ tt _ (lift_set_run h ct u l v key x o E)).
  by rewrite Hst.
Qed.

Section Inert.
Variable extern : val → val → list val → script.
Hypothesis Hin : inert extern.
Variable init : val → val → M sys unit.

(** A call to an imported function that does nothing: only the milestone
    is left. *)
Lemma import_run id name args st s u l :
  step_of_call name args = Some st →
  import extern init id name args (Sys s u l) =
    (Ret tt, Sys s u (l ++ [Ev id (hd VUndef args) st])).
Proof.
  intros Hst. unfold import. rewrite Hst.
  rewrite (bind_ret_run _ _ _ tt _ (emit_run _ _ _ _)).
  destruct (Hin (VFun (FExt name)) VUndef args) as [v ->]. done.
Qed.

End Inert.

(** Lines 55-81 with an inert environment: the milestones are logged, and
    the instance gets [_renderProxy] (in production) and [_self]. *)
Ltac run_tail Hin Hlook :=
  lazymatch goal with
  | |- context [if ?production then assign _ _ _ _ else import _ _ _ _ _] =>
      destruct production;
      [ rewrite (bind_ret_run _ _ _ tt _
                   (assign_run _ _ "_renderProxy" _ SProxy _ _ _ _ _ Hlook eq_refl))
      | rewrite (bind_ret_run _ _ _ tt _
                   (import_run _ Hin _ _ "initProxy" [_] SProxy _ _ _ eq_refl)) ]
  end;
  (erewrite bind_ret_run;
   [|apply (assign_run _ _ _ _ SSelf);
     [ first [ exact Hlook
             | apply list_lookup_insert_eq; exact (lookup_lt_Some _ _ _ Hlook) ]
     | reflexivity ]]);
  do 7 (erewrite bind_ret_run; [|apply (import_run _ Hin); reflexivity]);
  (erewrite (import_run _ Hin); [|reflexivity]);
  rewrite ?list_insert_insert_eq -?app_assoc.

(** On success the instance has got the new object as its [$options], and
    nothing else of it has changed. *)
Lemma initInternalComponent_vm v options s s' o :
  initInternalComponent (VObj v) options s = (Ret tt, s') →
  objs s !! v = Some o →
  objs s' !! v =
    Some (Obj (proto o) (<["$options" := VObj (length (objs s))]> (props o))).
Proof.
  intros Hr Hvm. unfold initInternalComponent in Hr.
  assert (v < length (objs s)) as Hv by (by apply (lookup_lt_Some _ _ _ Hvm)).
  apply bind_inv_ret in Hr as (ctor & sa & Hg & Hr).
  pose proof (respects_run eq _ _ _ _ (respects_get eq _ _) Hg) as <-.
  apply bind_inv_ret in Hr as (Ctor & sa & Hc & Hr).
  pose proof (respects_run eq _ _ _ _ (respects_as_class eq _) Hc) as <-.
  apply bind_inv_ret in Hr as (copts & sa & Ho & Hr).
  pose proof (respects_run eq _ _ _ _ (respects_read eq _ _) Ho) as <-.
  apply bind_inv_ret in Hr as (opts & sc & Hnew & Hr).
  assert (opts = VObj (length (objs s)) ∧
          sc = set_objs (objs s ++ [Obj copts ∅]) s) as [-> ->].
  { destruct copts; cbv [Object_create alloc throw] in Hnew; by simplify_eq. }
  assert (objs (set_objs (objs s ++ [Obj copts ∅]) s) !! v = Some o) as Hvm'.
  { by rewrite /= lookup_app_l. }
  rewrite (bind_ret_run _ _ _ _ _
    (set_run v "$options" (VObj (length (objs s))) _ o Hvm')) in Hr.
  cbn [set_objs objs classes] in Hr.
  eapply (respects_run (touches_only VNull (length (objs s)))) in Hr; last first.
  { repeat respects_step ltac:(by apply touches_set_new). }
  destruct Hr as (_ & _ & Hobj).
  { cbn [objs]. rewrite length_insert length_app. lia. }
  destruct (Hobj v _ Hv ltac:(cbn [objs]; rewrite insert_app_l //;
              rewrite lookup_app_l ?length_insert //;
              by apply list_lookup_insert_eq))
    as ([p' m'] & E' & Hp & Hm & _).
  simpl in Hp, Hm. rewrite E' Hp Hm //.
Qed.

Section Paths.
Variable mergeOptions :
  val → val → val → list klass → list obj → outcome val * list obj.
Variable production : bool.
Variable extern : val → val → list val → script.

(** X15.  The regular path of the initialiser, with an environment that
    leaves the store alone: for options that are missing, falsy or without
    a truthy [_isComponent], [$options] becomes what the merge engine
    returns for the resolved options of [vm.constructor], the options
    supplied, or a new empty object when there are none, and the instance.
    When the [created] hook has returned, the instance has got [$options],
    [_self] and, in production, [_renderProxy], on top of what the merge
    left of it. *)
Theorem init_merges_options init fuel id v o0 options y C base s1 merged h2 o2 :
  inert extern →
  objs (sstore y) !! v = Some o0 →
  let h0 := <[v := Obj (proto o0) (numbered id (props o0))]> (objs (sstore y)) in
  truthy options = false ∨ truthy (field h0 options "_isComponent") = false →
  field h0 (VObj v) "constructor" = VClass C →
  resolveConstructorOptions mergeOptions fuel C (Store h0 (classes (sstore y))) =
    (Ret base, s1) →
  let child := if truthy options then options else VObj (length (objs s1)) in
  let h1 := if truthy options then objs s1 else objs s1 ++ [Obj VNull ∅] in
  mergeOptions base child (VObj v) (classes s1) h1 = (Ret merged, h2) →
  h2 !! v = Some o2 →
  init_body mergeOptions production extern init fuel id (VObj v) options y =
    (Ret tt,
     Sys (Store (<[v := Obj (proto o2)
                         (marked production (VObj v)
                            (<["$options" := merged]> (props o2)))]> h2)
                (classes s1))
         (uid y) (log y ++ (Ev id (VObj v) <$> tail lifecycle))).
Proof.
  destruct y as [[h ct] u l].
  intros Hin Hvm h0 Hslow Hctor Hres child h1 Hmerge Hvm2.
  cbn [sstore objs classes uid log] in *.
  assert (v < length h) as Hv by (by apply (lookup_lt_Some _ _ _ Hvm)).
  assert (v < length h2) as Hv2 by (by apply (lookup_lt_Some _ _ _ Hvm2)).
  unfold init_body, init_rest.
  rewrite (bind_ret_run _ _ _ tt _ (lift_set_run h ct u l v "_uid" (VNum id) o0 Hvm)).
  erewrite (bind_ret_run _ _ _ tt (Sys (Store h0 ct) u l)); last first.
  { erewrite lift_set_run; [|by rewrite list_lookup_insert_eq].
    by rewrite list_insert_insert_eq. }
  rewrite (bind_ret_run _ _ _ false (Sys (Store h0 ct) u l)); last first.
  { destruct (truthy options) eqn:Ho; [|done].
    destruct Hslow as [?|Hc]; [done|].
    erewrite bind_ret_run; [|apply lift_get_run; by intros ->].
    cbn [sstore objs]. by rewrite Hc. }
  cbn match.
  set (o3 := Obj (proto o2) (<["$options" := merged]> (props o2))).
  assert (<[v := o3]> h2 !! v = Some o3) as Hvm3 by (by apply list_lookup_insert_eq).
  rewrite (bind_ret_run _ _ _ tt (Sys (Store (<[v := o3]> h2) (classes s1)) u l));
    last first.
  { erewrite bind_ret_run; [|by apply lift_get_run]. cbn [sstore objs]. rewrite Hctor.
    erewrite bind_ret_run; [|by apply lift_run].
    erewrite bind_ret_run; [|apply lift_run; exact Hres].
    destruct s1 as [hs cts]. cbn [objs classes] in *.
    rewrite (bind_ret_run _ _ _ child (Sys (Store h1 cts) u l)); last first.
    { unfold child, h1. by destruct (truthy options). }
    rewrite (bind_ret_run _ _ _ merged (Sys (Store h2 cts) u l)); last first.
    { apply lift_run. by rewrite /merge /= Hmerge. }
    by rewrite (lift_set_run _ _ _ _ _ _ _ _ Hvm2). }
  run_tail Hin Hvm3; reflexivity.
Qed.

(** X16.  The fast path of the initialiser, with an environment that leaves
    the store alone: for options with a truthy [_isComponent] nothing is
    resolved or merged.  When the [created] hook has returned, the
    instance has its [_uid], [_isVue], the new [$options] object, [_self]
    and, in production, [_renderProxy]; its other properties and its
    prototype are as they were, and no class field was assigned. *)
Theorem init_internal_component init fuel id v o0 options y s1 :
  inert extern →
  objs (sstore y) !! v = Some o0 →
  let h0 := <[v := Obj (proto o0) (numbered id (props o0))]> (objs (sstore y)) in
  truthy options = true →
  truthy (field h0 options "_isComponent") = true →
  initInternalComponent (VObj v) options (Store h0 (classes (sstore y))) =
    (Ret tt, s1) →
  init_body mergeOptions production extern init fuel id (VObj v) options y =
    (Ret tt,
     Sys (Store (<[v := Obj (proto o0)
                         (marked production (VObj v)
                            (<["$options" := VObj (length (objs (sstore y)))]>
                               (numbered id (props o0))))]> (objs s1))
                (classes (sstore y)))
         (uid y) (log y ++ (Ev id (VObj v) <$> tail lifecycle))).
Proof.
  destruct y as [[h ct] u l].
  intros Hin Hvm h0 Ho Hc Hfast.
  cbn [sstore objs classes uid log] in *.
  assert (v < length h) as Hv by (by apply (lookup_lt_Some _ _ _ Hvm)).
  assert (h0 !! v = Some (Obj (proto o0) (numbered id (props o0)))) as Hvm0.
  { by apply list_lookup_insert_eq. }
  pose proof (initInternalComponent_vm _ _ _ _ _ Hfast Hvm0) as Hvm1.
  cbn [objs proto props] in Hvm1. rewrite length_insert in Hvm1.
  pose proof (respects_run _ _ _ _ _
    (respects_initInternalComponent _ on_classes_same (VObj v) options) Hfast) as Hct.
  unfold same_classes in Hct. cbn [classes] in Hct.
  destruct s1 as [hs cts]. cbn [objs classes] in *. subst cts.
  unfold init_body, init_rest.
  rewrite (bind_ret_run _ _ _ tt _ (lift_set_run h ct u l v "_uid" (VNum id) o0 Hvm)).
  erewrite (bind_ret_run _ _ _ tt (Sys (Store h0 ct) u l)); last first.
  { erewrite lift_set_run; [|by rewrite list_lookup_insert_eq].
    by rewrite list_insert_insert_eq. }
  rewrite (bind_ret_run _ _ _ true (Sys (Store h0 ct) u l)); last first.
  { rewrite Ho.
    erewrite bind_ret_run; [|apply lift_get_run; by intros ->].
    cbn [sstore objs]. by rewrite Hc. }
  cbn match.
  rewrite (bind_ret_run _ _ _ tt _ (lift_run _ _ u l _ _ Hfast)).
  run_tail Hin Hvm1; reflexivity.
Qed.

(** X17.  A regular construction is the initialiser and nothing else.  In a
    production build, or when the receiver is an instance of [Vue], the
    constructor function reports nothing and behaves exactly as
    [this._init(options)], for a receiver that finds the initialiser as
    its [_init]: the same outcome and the same final state. *)
Theorem Vue_runs_init fuel VueCtor l options y :
  production = true ∨
  instanceof (VObj l) VueCtor (sstore y) = (Ret true, sstore y) →
  field (objs (sstore y)) (VObj l) "_init" = VFun FInit →
  Vue mergeOptions production extern fuel VueCtor (VObj l) options y =
  _init mergeOptions production extern fuel (VObj l) options y.
Proof.
  intros Hok Hf. unfold Vue.
  rewrite (bind_ret_run _ _ _ false y); last first.
  { destruct production; [done|]. destruct Hok as [?|Hinst]; [done|].
    cbn [negb]. rewrite (bind_ret_run _ _ _ true y) //.
    destruct y as [s u lg]. by apply lift_run. }
  rewrite (bind_ret_run _ _ _ tt y) //.
  rewrite (bind_ret_run _ _ _ _ _ (lift_get_run (VObj l) "_init" y _ _)) // Hf.
  cbn [call_val hd]. unfold bind.
  by destruct (_init mergeOptions production extern fuel (VObj l) options y)
    as [[[]|e] y2].
Qed.

End Paths.

Section Mount_more.
Variable mergeOptions :
  val → val → val → list klass → list obj → outcome val * list obj.
Variable production : bool.
Variable extern : val → val → list val → script.

(** X18.  An [el] without a [$mount] method: when the options carry a
    truthy [el] and [vm.$mount] is not a function, the call
    [vm.$mount(vm.$options.el)] throws a [TypeError].  This happens after
    the [created] hook has returned; the instance is otherwise
    initialised. *)
Theorem mount_without_method fuel vm o y y1 :
  init_body mergeOptions production extern
    (_init mergeOptions production extern fuel) fuel (uid y) vm o
    (fresh_uid vm y).2 = (Ret tt, y1) →
  let opts := field (objs (sstore y1)) vm "$options" in
  let el := field (objs (sstore y1)) opts "el" in
  let mount := field (objs (sstore y1)) vm "$mount" in
  opts ≠ VUndef → opts ≠ VNull → truthy el = true →
  (∀ f, mount ≠ VFun f) → (∀ c, mount ≠ VClass c) →
  _init mergeOptions production extern (S fuel) vm o y =
    (Throw TypeError,
     Sys (sstore y1) (uid y1) (log y1 ++ [Ev (uid y) vm (SMount el)])).
Proof.
  intros Hbody opts el mount ?? Hel Hf Hc.
  assert (∃ l, vm = VObj l) as [l ->].
  { unfold init_body in Hbody. apply bind_inv_ret in Hbody as ([] & y2 & Hset & _).
    apply lift_ret_inv in Hset as [Hset _]. by apply set_ret_inv in Hset. }
  cbn [_init]. unfold bind at 1. cbn [fresh_uid].
  rewrite (bind_ret_run _ _ _ _ _ Hbody).
  unfold auto_mount.
  rewrite (bind_ret_run _ _ _ _ _ (lift_get_run (VObj l) "$options" y1 _ _)) //.
  fold opts.
  rewrite (bind_ret_run _ _ _ _ _ (lift_get_run opts "el" y1 _ _)) //.
  fold el. rewrite Hel. unfold invoke. rewrite bind_assoc_run.
  rewrite (bind_ret_run _ _ _ _ _ (lift_get_run (VObj l) "$mount" y1 _ _)) //.
  fold mount. rewrite bind_assoc_run.
  rewrite (bind_ret_run _ _ _ tt
    (Sys (sstore y1) (uid y1) (log y1 ++ [Ev (uid y) (VObj l) (SMount el)]))); [|done].
  apply bind_throw_run.
  destruct mount as [| | | | | |c|f] eqn:Em; try done.
  - by destruct (Hc c).
  - by destruct (Hf f).
Qed.

End Mount_more.

(** * The further properties at work *)

Lemma shallow_merge_allocates : merge_allocates shallow_merge.
Proof.
  intros p c v ct h r h' [= <- <-]. rewrite length_app /=. split; [lia|].
  intros x [= <-]. by exists (length h).
Qed.

Lemma demo_cache_ok : cache_ok demo.
Proof.
  intros c k E. destruct c as [|[|c]]; simplify_eq/=; [done | lia].
Qed.

Lemma resolveModifiedOptions_late_demo :
  resolveModifiedOptions 1 demo =
    (Ret (VObj 9),
     set_objs (demo_objs ++ [Obj VNull (late_options demo_objs (VObj 4) (VObj 5))])
       demo).
Proof.
  pose (k := Cls.Make (VObj 4) (Some 0) (VObj 2) (VObj 3) (VObj 5) (VObj 7)).
  assert (classes demo !! 1 = Some k) as H1 by reflexivity.
  assert (val_ok (objs demo) (Cls.options k)) as H2 by (cbn; lia).
  assert (5 < length (objs demo)) as H3 by (cbn; lia).
  apply (proj2 (resolveModifiedOptions_late 1 demo k 5 H1 demo_wf I H2 eq_refl H3)).
  intros Hm. apply (f_equal (λ m : gmap string val, m !! "late")) in Hm.
  vm_compute in Hm. discriminate.
Defined.

Lemma resolveModifiedOptions_unsealed_demo :
  resolveModifiedOptions 0 demo = (Throw TypeError, demo).
Proof.
  pose (k := Cls.Make (VObj 0) None VUndef VUndef VUndef (VObj 6)).
  assert (classes demo !! 0 = Some k) as H1 by reflexivity.
  apply (proj2 (resolveModifiedOptions_unsealed 0 demo k H1 I (or_introl eq_refl))).
  intros Hm. apply (f_equal (λ m : gmap string val, m !! "a")) in Hm.
  vm_compute in Hm. discriminate.
Defined.

Lemma resolve_returns_options_demo :
  ∃ k', classes demo_resolved !! 1 = Some k' ∧ Cls.options k' = VObj 10 ∧
    ∀ P, Cls.super k' = Some P →
      ∃ kp, classes demo_resolved !! P = Some kp ∧
            Cls.superOptions k' = Cls.options kp.
Proof.
  apply (resolve_returns_options shallow_merge 2 1 demo).
  vm_compute. reflexivity.
Defined.

Lemma resolve_blind_to_mutation_demo :
  resolveConstructorOptions shallow_merge 2 1
    (set_objs (<[0 := Obj VNull ∅]> (objs demo_resolved)) demo_resolved) =
  (Ret (VObj 10), set_objs (<[0 := Obj VNull ∅]> (objs demo_resolved)) demo_resolved).
Proof.
  apply (resolve_blind_to_mutation shallow_merge 2 1 demo).
  vm_compute. reflexivity.
Defined.

Lemma resolve_cycle_overflows_demo :
  resolveConstructorOptions shallow_merge 100 0 demo_loop =
    (Throw RangeError, demo_loop).
Proof.
  apply resolve_cycle_overflows.
  exists (Cls.Make VUndef (Some 0) VUndef VUndef VUndef VUndef), 0.
  split; [reflexivity|]. split; [reflexivity|]. apply ancestor_refl.
Defined.

Lemma resolve_depth_demo :
  resolveConstructorOptions shallow_merge 1 1 demo = (Throw RangeError, demo).
Proof.
  assert (height (classes demo) 1 1) as Hd.
  { apply (height_sub _ 1 (Cls.Make (VObj 4) (Some 0) (VObj 2) (VObj 3) (VObj 5)
                             (VObj 7)) 0 0); [reflexivity..|].
    by apply (height_root _ 0 (Cls.Make (VObj 0) None VUndef VUndef VUndef (VObj 6))). }
  apply (resolve_depth shallow_merge 1 demo 1 1 Hd). lia.
Defined.

Lemma unnamed_class_not_registered_demo :
  ∃ h4 ct, resolveConstructorOptions shallow_merge 2 1
             (demo_bare (<["b" := VNum 2]> ∅)) = (Ret (VObj 5), Store h4 ct) ∧
           length h4 = 6.
Proof.
  pose (s := demo_bare (<["b" := VNum 2]> ∅)).
  pose (k := Cls.Make (VObj 3) (Some 0) (VObj 1) (VObj 2) (VObj 4) VUndef).
  pose (s3 := set_classes (<[1 := with_superOptions (VObj 0) k]> (classes s)) s).
  pose (h4 := (shallow_merge (VObj 0) (VObj 2) VUndef (classes s3) (objs s3)).2).
  assert (classes s !! 1 = Some k) as H1 by reflexivity.
  assert (Cls.super k = Some 0) as H2 by reflexivity.
  assert (resolveConstructorOptions shallow_merge 1 0 s = (Ret (VObj 0), s))
    as H3 by reflexivity.
  assert (VObj 0 ≠ Cls.superOptions k) as H4 by discriminate.
  assert (absorb_late_options 1
            (set_classes (<[1 := with_superOptions (VObj 0) k]> (classes s)) s)
          = (Ret tt, s3)) as H5 by (vm_compute; reflexivity).
  assert (shallow_merge (VObj 0) (Cls.extendOptions k) VUndef (classes s3) (objs s3)
          = (Ret (VObj 5), h4)) as H6 by (vm_compute; reflexivity).
  assert (truthy (field h4 (VObj 5) "name") = false) as H9
    by (vm_compute; reflexivity).
  exists h4, (<[1 := with_options (VObj 5) (with_superOptions (VObj 0) k)]> (classes s)).
  split; [|vm_compute; reflexivity].
  exact (unnamed_class_not_registered shallow_merge 1 1 s k 0 (VObj 0) s s3 5 h4
           H1 H2 H3 H4 H5 H6 H9).
Defined.

Lemma registration_without_components_demo :
  ∃ s', resolveConstructorOptions shallow_merge 2 1
          (demo_bare (<["name" := VStr "x"]> ∅)) = (Throw TypeError, s') ∧
        Cls.options <$> classes s' !! 1 = Some (VObj 5).
Proof.
  pose (s := demo_bare (<["name" := VStr "x"]> ∅)).
  pose (k := Cls.Make (VObj 3) (Some 0) (VObj 1) (VObj 2) (VObj 4) VUndef).
  pose (s3 := set_classes (<[1 := with_superOptions (VObj 0) k]> (classes s)) s).
  pose (h4 := (shallow_merge (VObj 0) (VObj 2) VUndef (classes s3) (objs s3)).2).
  assert (classes s !! 1 = Some k) as H1 by reflexivity.
  assert (Cls.super k = Some 0) as H2 by reflexivity.
  assert (resolveConstructorOptions shallow_merge 1 0 s = (Ret (VObj 0), s))
    as H3 by reflexivity.
  assert (VObj 0 ≠ Cls.superOptions k) as H4 by discriminate.
  assert (absorb_late_options 1
            (set_classes (<[1 := with_superOptions (VObj 0) k]> (classes s)) s)
          = (Ret tt, s3)) as H5 by (vm_compute; reflexivity).
  assert (shallow_merge (VObj 0) (Cls.extendOptions k) VUndef (classes s3) (objs s3)
          = (Ret (VObj 5), h4)) as H6 by (vm_compute; reflexivity).
  assert (truthy (field h4 (VObj 5) "name") = true) as H7
    by (vm_compute; reflexivity).
  assert (field h4 (VObj 5) "components" = VUndef) as H8
    by (vm_compute; reflexivity).
  eexists. split.
  - exact (registration_without_components shallow_merge 1 1 s k 0 (VObj 0) s s3
             (VObj 5) h4 H1 H2 H3 H4 H5 H6
             (or_intror (or_intror (conj H7 (or_introl H8))))).
  - vm_compute. reflexivity.
Defined.

Lemma failed_remerge_not_retried_demo :
  ∃ s', resolveConstructorOptions shallow_merge 2 1
          (demo_bare (<["name" := VStr "x"]> ∅)) = (Throw TypeError, s') ∧
        ∃ k', classes s' !! 1 = Some k' ∧ Cls.superOptions k' = VObj 0 ∧
              resolveConstructorOptions shallow_merge 2 1 s' =
                (Ret (Cls.options k'), s').
Proof.
  pose (s := demo_bare (<["name" := VStr "x"]> ∅)).
  pose (k := Cls.Make (VObj 3) (Some 0) (VObj 1) (VObj 2) (VObj 4) VUndef).
  pose (s' := (resolveConstructorOptions shallow_merge 2 1 s).2).
  assert (classes s !! 1 = Some k) as H1 by reflexivity.
  assert (Cls.super k = Some 0) as H2 by reflexivity.
  assert (resolveConstructorOptions shallow_merge 1 0 s = (Ret (VObj 0), s))
    as H3 by reflexivity.
  assert (VObj 0 ≠ Cls.superOptions k) as H4 by discriminate.
  assert (resolveConstructorOptions shallow_merge 2 1 s = (Throw TypeError, s'))
    as H5 by (vm_compute; reflexivity).
  exists s'. split; [exact H5|].
  exact (failed_remerge_not_retried shallow_merge 1 1 s k 0 (VObj 0) s TypeError s'
           H1 H2 H3 H4 H5).
Defined.

Lemma resolve_all_or_nothing_demo :
  (demo_resolved = demo ∧
   ∃ k, classes demo !! 1 = Some k ∧ VObj 10 = Cls.options k) ∨
  (∃ l, VObj 10 = VObj l ∧ length (objs demo) ≤ l).
Proof.
  apply (resolve_all_or_nothing shallow_merge 2 1 demo (VObj 10) demo_resolved
           shallow_merge_allocates demo_cache_ok).
  vm_compute. reflexivity.
Defined.

Lemma internal_component_without_vnode_demo :
  ∃ s', initInternalComponent (VObj 13) (VObj 9) demo_fast = (Throw TypeError, s') ∧
        field (objs s') (VObj 13) "$options" = VObj 14.
Proof.
  assert (objs demo_fast !! 13 = Some (Obj (VObj 7) ∅)) as H2 by reflexivity.
  assert (field (objs demo_fast) (VObj 13) "constructor" = VClass 1) as H3
    by (vm_compute; reflexivity).
  assert (Cls.options <$> classes demo_fast !! 1 = Some (VObj 4)) as H4 by reflexivity.
  assert (VObj 4 = VNull ∨ ∃ p, VObj 4 = VObj p ∧ p < length (objs demo_fast)) as H5
    by (right; exists 4; split; [reflexivity | cbn; lia]).
  assert (val_ok (objs demo_fast) (VObj 9)) as H6 by (cbn; lia).
  assert (VObj 9 ≠ VUndef) as H7 by discriminate.
  assert (VObj 9 ≠ VNull) as H8 by discriminate.
  assert (field (objs demo_fast) (VObj 9) "_parentVnode" = VUndef) as H9
    by (vm_compute; reflexivity).
  destruct (internal_component_without_vnode demo_fast 13 (Obj (VObj 7) ∅) (VObj 9) 1
              (VObj 4) demo_fast_wf H2 H3 H4 H5 H6 H7 H8 (or_introl H9))
    as (s' & Hr & _ & Ho & _).
  exists s'. split; [exact Hr | exact Ho].
Defined.

Lemma internal_component_without_options_demo :
  initInternalComponent (VObj 1) (VObj 12) demo_fast = (Throw TypeError, demo_fast).
Proof.
  assert (field (objs demo_fast) (VObj 1) "constructor" = VUndef) as H1
    by (vm_compute; reflexivity).
  apply internal_component_without_options; [discriminate.. | by left].
Defined.

Lemma init_internal_component_demo :
  ∃ y1, init_body shallow_merge true demo_idle (λ _ _, ret tt) 0 5 (VObj 13) (VObj 12)
          (init_sys demo_fast) = (Ret tt, y1) ∧
        field (objs (sstore y1)) (VObj 13) "_uid" = VNum 5 ∧
        field (objs (sstore y1)) (VObj 13) "_self" = VObj 13 ∧
        field (objs (sstore y1)) (VObj 13) "$options" = VObj 14.
Proof.
  pose (h0 := <[13 := Obj (VObj 7) (numbered 5 ∅)]> (objs demo_fast)).
  pose (s1 := (initInternalComponent (VObj 13) (VObj 12)
                 (Store h0 (classes demo_fast))).2).
  assert (inert demo_idle) as H0 by (intros ???; by exists VUndef).
  assert (objs (sstore (init_sys demo_fast)) !! 13 = Some (Obj (VObj 7) ∅)) as H1
    by reflexivity.
  assert (truthy (VObj 12) = true) as H2 by reflexivity.
  assert (truthy (field h0 (VObj 12) "_isComponent") = true) as H3
    by (vm_compute; reflexivity).
  assert (initInternalComponent (VObj 13) (VObj 12) (Store h0 (classes demo_fast)) =
          (Ret tt, s1)) as H4 by (vm_compute; reflexivity).
  eexists. split.
  - exact (init_internal_component shallow_merge true demo_idle (λ _ _, ret tt) 0 5 13
             (Obj (VObj 7) ∅) (VObj 12) (init_sys demo_fast) s1 H0 H1 H2 H3 H4).
  - repeat split; vm_compute; reflexivity.
Defined.

Lemma init_merges_options_demo :
  ∃ y1, init_body shallow_merge true demo_idle (λ _ _, ret tt) 2 0 (VObj 8) (VObj 14)
          (init_sys demo_app) = (Ret tt, y1) ∧
        field (objs (sstore y1)) (field (objs (sstore y1)) (VObj 8) "$options") "el" =
          VStr "#app".
Proof.
  pose (h0 := <[8 := Obj (VObj 7) (numbered 0 ∅)]> (objs demo_app)).
  pose (s1 := (resolveConstructorOptions shallow_merge 2 1
                 (Store h0 (classes demo_app))).2).
  pose (h2 := (shallow_merge (VObj 16) (VObj 14) (VObj 8) (classes s1) (objs s1)).2).
  assert (inert demo_idle) as H0 by (intros ???; by exists VUndef).
  assert (objs (sstore (init_sys demo_app)) !! 8 = Some (Obj (VObj 7) ∅)) as H1
    by reflexivity.
  assert (truthy (VObj 14) = false ∨
          truthy (field h0 (VObj 14) "_isComponent") = false) as H2
    by (right; vm_compute; reflexivity).
  assert (field h0 (VObj 8) "constructor" = VClass 1) as H3
    by (vm_compute; reflexivity).
  assert (resolveConstructorOptions shallow_merge 2 1 (Store h0 (classes demo_app)) =
          (Ret (VObj 16), s1)) as H4 by (vm_compute; reflexivity).
  assert (shallow_merge (VObj 16) (VObj 14) (VObj 8) (classes s1) (objs s1) =
          (Ret (VObj 17), h2)) as H5 by (vm_compute; reflexivity).
  assert (h2 !! 8 = Some (Obj (VObj 7) (numbered 0 ∅))) as H6
    by (vm_compute; reflexivity).
  eexists. split.
  - exact (init_merges_options shallow_merge true demo_idle (λ _ _, ret tt) 2 0 8
             (Obj (VObj 7) ∅) (VObj 14) (init_sys demo_app) 1 (VObj 16) s1 (VObj 17)
             h2 (Obj (VObj 7) (numbered 0 ∅)) H0 H1 H2 H3 H4 H5 H6).
  - vm_compute. reflexivity.
Defined.

Lemma Vue_runs_init_demo :
  Vue shallow_merge false demo_extern 4 0 (VObj 8) (VObj 14) (init_sys demo_app) =
  demo_init 4 (VObj 8) (VObj 14) (init_sys demo_app).
Proof.
  apply Vue_runs_init.
  - right. vm_compute. reflexivity.
  - vm_compute. reflexivity.
Defined.

Lemma mount_without_method_demo :
  ∃ y', _init shallow_merge false demo_idle 3 (VObj 8) (VObj 14)
          (init_sys demo_nomount) = (Throw TypeError, y') ∧
        steps_of 0 (log y') = lifecycle ++ [SMount (VStr "#app")].
Proof.
  pose (y1 := (init_body shallow_merge false demo_idle
                 (_init shallow_merge false demo_idle 2) 2 0 (VObj 8) (VObj 14)
                 (fresh_uid (VObj 8) (init_sys demo_nomount)).2).2).
  assert (init_body shallow_merge false demo_idle
            (_init shallow_merge false demo_idle 2) 2 (uid (init_sys demo_nomount))
            (VObj 8) (VObj 14) (fresh_uid (VObj 8) (init_sys demo_nomount)).2 =
          (Ret tt, y1)) as H1 by (vm_compute; reflexivity).
  assert (field (objs (sstore y1)) (VObj 8) "$options" = VObj 17) as Ho
    by (vm_compute; reflexivity).
  assert (field (objs (sstore y1)) (VObj 17) "el" = VStr "#app") as Hel
    by (vm_compute; reflexivity).
  assert (field (objs (sstore y1)) (VObj 8) "$mount" = VUndef) as Hm
    by (vm_compute; reflexivity).
  assert (field (objs (sstore y1)) (VObj 8) "$options" ≠ VUndef) as Hn1
    by (rewrite Ho; discriminate).
  assert (field (objs (sstore y1)) (VObj 8) "$options" ≠ VNull) as Hn2
    by (rewrite Ho; discriminate).
  assert (truthy (field (objs (sstore y1))
                    (field (objs (sstore y1)) (VObj 8) "$options") "el") = true)
    as Htr by (rewrite Ho Hel; reflexivity).
  assert (∀ f, field (objs (sstore y1)) (VObj 8) "$mount" ≠ VFun f) as Hf
    by (rewrite Hm; discriminate).
  assert (∀ c, field (objs (sstore y1)) (VObj 8) "$mount" ≠ VClass c) as Hc
    by (rewrite Hm; discriminate).
  eexists. split.
  - exact (mount_without_method shallow_merge false demo_idle 2 (VObj 8) (VObj 14)
             (init_sys demo_nomount) y1 H1 Hn1 Hn2 Htr Hf Hc).
  - vm_compute. reflexivity.
Defined.
